(** * python-dmmp: the multipathd IPC client, embedded in Rocq

    A shallow embedding of [dmmp.py]: the length-prefix framing
    ([_len_to_ssize_t_bytes], [_bytes_to_len]), the socket session
    ([_ipc_exec]), the status tables and the object graph
    ([Path], [PathGroup], [MPath]) and the query [mpaths_get].

    Conventions of the embedding.
    - Python integers are [Z]; the content of a byte string ([str] of
      Python 2, [bytes], [bytearray]) is a [list byte]; text is a list of
      code points.
    - A call that may raise returns a [result]; the exception classes the
      module can meet are the constructors of [exn].
    - The module is written in Python 2: its [except struct.error]
      branches use the hex codec of byte strings ([decode("hex")],
      [encode("hex")]), and [_add_reverse_mapping] inserts into a dict
      while it loops over [d.items()], which needs the list that [items()]
      returns there.  The embedding follows that language: the session and
      the query are Python 2's, UTF-8 decoder included.  The one thing it
      leaves open is the struct module: the format ["n"] that the [try]
      branches ask for is known to CPython from 3.3 on and unknown before
      (a struct.error); [struct_n] in the [platform] says which, next to
      the width and byte order of [ssize_t].
    - The two framing functions can be called on their own, also under
      Python 3, where the hex codec methods are gone, and the encoder's
      [except] branch returns a [bytearray], which has no [encode] under
      either language.  [_len_to_ssize_t_bytes] and [_bytes_to_len] are the
      functions on the content of the byte strings, as the session uses
      them (the prefix goes out on the socket, and comes back as the [str]
      that [recv] returns); [_len_to_ssize_t_bytes_object] and
      [_bytes_to_len_object] are the same functions with the types of the
      objects, for the statements about one function given the other's
      result, or called where struct knows ["n"].
    - A generator is embedded by what it does when it is run to its end:
      the objects it yields and the exception, if any, that ends it. *)

From Stdlib Require Import String Ascii ZArith NArith List Bool Lia.
From Stdlib.Strings Require Import Byte.
Import ListNotations.
Open Scope Z_scope.

(* ================================================================== *)
(** ** Exceptions and results *)

Inductive exn : Type :=
| StructError                      (* struct.error *)
| TypeError
| ValueError                       (* also json's decode error *)
| KeyError
| NameError (name : string)
| UnicodeDecodeError
| UnicodeEncodeError
| AttributeError                   (* a method the object does not have *)
| MemoryError
| SocketError (what : string).     (* socket.error / socket.timeout *)

Inductive result (A : Type) : Type :=
| Ok (a : A)
| Raise (e : exn).
Arguments Ok {A} a.
Arguments Raise {A} e.

Definition bind {A B} (r : result A) (k : A -> result B) : result B :=
  match r with
  | Ok a => k a
  | Raise e => Raise e
  end.

Declare Scope py_scope.
Delimit Scope py_scope with py.
Notation "x <- r ;; k" := (bind r (fun x => k))
  (at level 61, r at next level, right associativity) : py_scope.
Open Scope py_scope.

(** [try: body  except struct.error: handler] *)
Definition except_struct_error {A} (body : result A) (handler : result A)
  : result A :=
  match body with
  | Raise StructError => handler
  | other => other
  end.

(* ================================================================== *)
(** ** Platform *)

Inductive endian : Type := Little | Big.

Record platform : Type := {
  ssize_bytes : nat;      (* ctypes.sizeof(ctypes.c_ssize_t(0)) *)
  byteorder : endian;     (* sys.byteorder *)
  struct_n : bool         (* does struct know the format "n"? *)
}.

Definition _API_VERSION_MAJOR : Z := 0.

Definition _IPC_LEN_SIZE (pf : platform) : Z := Z.of_nat (ssize_bytes pf).

(* ================================================================== *)
(** ** Bytes, hexadecimal text, and the struct module *)

Definition byte_val (b : byte) : Z := Z.of_N (Byte.to_N b).

Definition byte_of (z : Z) : byte :=
  match Byte.of_N (Z.to_N (z mod 256)) with
  | Some b => b
  | None => x00
  end.

(** Lower-case hexadecimal digit of [d], for [0 <= d < 16]. *)
Definition hexdigit (d : Z) : ascii :=
  if d <? 10 then ascii_of_N (Z.to_N (48 + d))
  else ascii_of_N (Z.to_N (87 + d)).

(** Value of a hexadecimal digit, either case. *)
Definition hexval (c : ascii) : option Z :=
  let n := Z.of_N (N_of_ascii c) in
  if (48 <=? n) && (n <=? 57) then Some (n - 48)
  else if (97 <=? n) && (n <=? 102) then Some (n - 87)
  else if (65 <=? n) && (n <=? 70) then Some (n - 55)
  else None.

Fixpoint hex_digits (fuel : nat) (n : Z) (acc : list ascii) : list ascii :=
  match fuel with
  | O => acc
  | S f =>
      if n <? 16 then hexdigit n :: acc
      else hex_digits f (n / 16) (hexdigit (n mod 16) :: acc)
  end.

(** ["%x" % v] *)
Definition format_x (v : Z) : list ascii :=
  if v <? 0
  then "-"%char :: hex_digits (S (Z.to_nat (Z.log2 (- v)))) (- v) []
  else hex_digits (S (Z.to_nat (Z.log2 v))) v [].

(** [s.zfill(width)]: zeros go after a leading sign. *)
Definition zfill (width : Z) (s : list ascii) : list ascii :=
  let pad := repeat "0"%char (Z.to_nat (width - Z.of_nat (length s))) in
  match s with
  | c :: rest =>
      if (c =? "-")%char || (c =? "+")%char then c :: pad ++ rest
      else pad ++ s
  | [] => pad
  end.

(** [s.decode("hex")]: odd length or a non-digit is a TypeError. *)
Fixpoint unhexlify (s : list ascii) : result (list byte) :=
  match s with
  | [] => Ok []
  | [_] => Raise TypeError
  | a :: b :: rest =>
      match hexval a, hexval b with
      | Some x, Some y =>
          bs <- unhexlify rest ;; Ok (byte_of (16 * x + y) :: bs)
      | _, _ => Raise TypeError
      end
  end.

(** [s.encode("hex")] *)
Definition hexlify (bs : list byte) : list ascii :=
  flat_map (fun b => [hexdigit (byte_val b / 16); hexdigit (byte_val b mod 16)])
           bs.

Fixpoint hex_value (acc : Z) (s : list ascii) : option Z :=
  match s with
  | [] => Some acc
  | c :: rest =>
      match hexval c with
      | Some d => hex_value (16 * acc + d) rest
      | None => None
      end
  end.

(** [int(s, 16)] on a string of hexadecimal digits; the empty string is a
    ValueError. *)
Definition int16 (s : list ascii) : result Z :=
  match s with
  | [] => Raise ValueError
  | _ => match hex_value 0 s with
         | Some v => Ok v
         | None => Raise ValueError
         end
  end.

(** Little-endian bytes of [u], [w] of them. *)
Fixpoint le_bytes (w : nat) (u : Z) : list byte :=
  match w with
  | O => []
  | S w' => byte_of u :: le_bytes w' (u / 256)
  end.

Fixpoint le_value (bs : list byte) : Z :=
  match bs with
  | [] => 0
  | b :: rest => byte_val b + 256 * le_value rest
  end.

(** Between little-endian order and the platform's order. *)
Definition native (pf : platform) (bs : list byte) : list byte :=
  match byteorder pf with
  | Little => bs
  | Big => rev bs
  end.

Definition ssize_half (pf : platform) : Z := 2 ^ (8 * _IPC_LEN_SIZE pf - 1).
Definition ssize_modulus (pf : platform) : Z := 2 ^ (8 * _IPC_LEN_SIZE pf).

(** [struct.pack("n", v)]: the two's complement of [v] on [ssize_t],
    struct.error when the format is unknown or [v] is out of range. *)
Definition struct_pack_n (pf : platform) (v : Z) : result (list byte) :=
  if negb (struct_n pf) then Raise StructError
  else if (- ssize_half pf <=? v) && (v <? ssize_half pf)
       then Ok (native pf (le_bytes (ssize_bytes pf) (v mod ssize_modulus pf)))
       else Raise StructError.

(** [struct.unpack("n", bs)[0]]: struct.error when the format is unknown or
    [bs] is not [ssize_t] wide. *)
Definition struct_unpack_n (pf : platform) (bs : list byte) : result Z :=
  if negb (struct_n pf) then Raise StructError
  else if (length bs =? ssize_bytes pf)%nat
       then let u := le_value (native pf bs) in
            Ok (if u <? ssize_half pf then u else u - ssize_modulus pf)
       else Raise StructError.

(* ================================================================== *)
(** ** Transport framing *)

(** The two functions on the content of the byte strings, with Python 2's
    hex codec in the [except] branches: the bytes the encoder returns, and
    the decoder on a [str]. *)
Definition _len_to_ssize_t_bytes (pf : platform) (len_value : Z)
  : result (list byte) :=
  except_struct_error
    (struct_pack_n pf len_value)
    (let h := format_x len_value in
     s <- unhexlify
            (zfill (_IPC_LEN_SIZE pf * 2)
                   (repeat "0"%char (length h mod 2) ++ h)) ;;
     let s := match byteorder pf with
              | Little => rev s
              | Big => s
              end in
     Ok s).

Definition _bytes_to_len (pf : platform) (len_bytes : list byte) : result Z :=
  except_struct_error
    (struct_unpack_n pf len_bytes)
    (let len_bytes := match byteorder pf with
                      | Little => rev len_bytes
                      | Big => len_bytes
                      end in
     int16 (hexlify len_bytes)).

(** The same functions with the types of the objects.  A byte string is
    immutable ([str] of Python 2, [bytes] of Python 3: what [struct.pack]
    and [recv] return) or a [bytearray]. *)
Inductive byte_string : Type :=
| Bytes (bs : list byte)
| ByteArray (bs : list byte).

Definition content (o : byte_string) : list byte :=
  match o with
  | Bytes bs => bs
  | ByteArray bs => bs
  end.

(** Lines 34-42.  Where struct knows ["n"] the language is Python 3 and the
    [str] of line 39 has no [decode]: the [except] branch raises
    AttributeError.  Where it does not, the branch runs and line 42 makes
    a [bytearray] of the bytes. *)
Definition _len_to_ssize_t_bytes_object (pf : platform) (len_value : Z)
  : result byte_string :=
  except_struct_error
    (bs <- struct_pack_n pf len_value ;; Ok (Bytes bs))
    (if struct_n pf then Raise AttributeError
     else
       let h := format_x len_value in
       s <- unhexlify
              (zfill (_IPC_LEN_SIZE pf * 2)
                     (repeat "0"%char (length h mod 2) ++ h)) ;;
       let s := match byteorder pf with
                | Little => rev s
                | Big => s
                end in
       Ok (ByteArray s)).

(** Lines 45-51.  [struct.unpack] reads either kind of byte string; the
    slice of line 50 keeps the kind; [encode("hex")] of line 51 is a
    method of Python 2's [str] only: [bytes] of Python 3 and [bytearray]
    have no [encode] (AttributeError). *)
Definition _bytes_to_len_object (pf : platform) (len_bytes : byte_string)
  : result Z :=
  except_struct_error
    (struct_unpack_n pf (content len_bytes))
    (match len_bytes with
     | Bytes bs =>
         if struct_n pf then Raise AttributeError
         else
           let bs := match byteorder pf with
                     | Little => rev bs
                     | Big => bs
                     end in
           int16 (hexlify bs)
     | ByteArray _ => Raise AttributeError
     end).

(* ================================================================== *)
(** ** Text and UTF-8 *)

(** Text is a sequence of code points. *)
Definition text : Type := list Z.

Definition text_of (s : string) : text :=
  map (fun c => Z.of_N (N_of_ascii c)) (list_ascii_of_string s).

Fixpoint text_eqb (a b : text) : bool :=
  match a, b with
  | [], [] => true
  | x :: a', y :: b' => (x =? y) && text_eqb a' b'
  | _, _ => false
  end.

Definition is_ascii (t : text) : Prop := Forall (fun c => 0 <= c < 128) t.

(** The UTF-8 codec of CPython 2, which lets the surrogates U+D800 to
    U+DFFF through like any other character of three bytes, in both
    directions. *)
Definition utf8_encode_char (c : Z) : result (list byte) :=
  if c <? 0 then Raise UnicodeEncodeError
  else if c <? 128 then Ok [byte_of c]
  else if c <? 2048 then Ok [byte_of (192 + c / 64); byte_of (128 + c mod 64)]
  else if c <? 65536
       then Ok [byte_of (224 + c / 4096); byte_of (128 + (c / 64) mod 64);
                byte_of (128 + c mod 64)]
  else if c <? 1114112
       then Ok [byte_of (240 + c / 262144); byte_of (128 + (c / 4096) mod 64);
                byte_of (128 + (c / 64) mod 64); byte_of (128 + c mod 64)]
  else Raise UnicodeEncodeError.

(** [bytearray(t, 'utf-8')] *)
Fixpoint utf8_encode (t : text) : result (list byte) :=
  match t with
  | [] => Ok []
  | c :: rest =>
      b <- utf8_encode_char c ;;
      bs <- utf8_encode rest ;;
      Ok (b ++ bs)
  end.

(** Payload bits of a continuation byte. *)
Definition utf8_cont (b : byte) : option Z :=
  let v := byte_val b in
  if (128 <=? v) && (v <? 192) then Some (v - 128) else None.

(** [bs.decode("utf-8")], errors strict: a start byte 00-7F, C2-DF, E0-EF
    or F0-F4 with its continuation bytes; no over-long form, nothing above
    U+10FFFF; an encoded surrogate is decoded. *)
Fixpoint utf8_decode (bs : list byte) : result text :=
  match bs with
  | [] => Ok []
  | b0 :: r0 =>
      let v0 := byte_val b0 in
      if v0 <? 128 then t <- utf8_decode r0 ;; Ok (v0 :: t)
      else if v0 <? 194 then Raise UnicodeDecodeError
      else if v0 <? 224 then
        match r0 with
        | b1 :: r1 =>
            match utf8_cont b1 with
            | Some c1 => t <- utf8_decode r1 ;; Ok ((v0 - 192) * 64 + c1 :: t)
            | None => Raise UnicodeDecodeError
            end
        | _ => Raise UnicodeDecodeError
        end
      else if v0 <? 240 then
        match r0 with
        | b1 :: b2 :: r2 =>
            match utf8_cont b1, utf8_cont b2 with
            | Some c1, Some c2 =>
                let cp := (v0 - 224) * 4096 + c1 * 64 + c2 in
                if cp <? 2048
                then Raise UnicodeDecodeError
                else t <- utf8_decode r2 ;; Ok (cp :: t)
            | _, _ => Raise UnicodeDecodeError
            end
        | _ => Raise UnicodeDecodeError
        end
      else if v0 <? 245 then
        match r0 with
        | b1 :: b2 :: b3 :: r3 =>
            match utf8_cont b1, utf8_cont b2, utf8_cont b3 with
            | Some c1, Some c2, Some c3 =>
                let cp := (v0 - 240) * 262144 + c1 * 4096 + c2 * 64 + c3 in
                if (cp <? 65536) || (1114111 <? cp)
                then Raise UnicodeDecodeError
                else t <- utf8_decode r3 ;; Ok (cp :: t)
            | _, _, _ => Raise UnicodeDecodeError
            end
        | _ => Raise UnicodeDecodeError
        end
      else Raise UnicodeDecodeError
  end.

(** [t.lstrip(chars)], [t.rstrip(chars)], [t.strip(chars)] *)
Fixpoint lstrip (chars : text) (t : text) : text :=
  match t with
  | [] => []
  | c :: rest => if existsb (Z.eqb c) chars then lstrip chars rest else t
  end.

Definition rstrip (chars : text) (t : text) : text :=
  rev (lstrip chars (rev t)).

Definition strip (chars : text) (t : text) : text :=
  rstrip chars (lstrip chars t).

(* ================================================================== *)
(** ** Python values as [json.loads] returns them *)

(** A float is [(-1)^neg * m * 2^e], an infinity, or a NaN. *)
Inductive pyfloat : Type :=
| FFinite (neg : bool) (m e : Z)
| FInf (neg : bool)
| FNan.

#[local] Unset Elimination Schemes.
Inductive json : Type :=
| JNull
| JBool (b : bool)
| JInt (n : Z)
| JFloat (f : pyfloat)
| JStr (s : text)
| JArr (items : list json)
| JObj (members : list (text * json)).   (* keys distinct, insertion order *)
#[local] Set Elimination Schemes.

Definition float_eq_int (f : pyfloat) (k : Z) : bool :=
  match f with
  | FFinite neg m e =>
      let s := if neg then - m else m in
      if 0 <=? e then s * 2 ^ e =? k else s =? k * 2 ^ (- e)
  | _ => false
  end.

Definition float_eq (f g : pyfloat) : bool :=
  match f, g with
  | FFinite n1 m1 e1, FFinite n2 m2 e2 =>
      let s1 := if n1 then - m1 else m1 in
      let s2 := if n2 then - m2 else m2 in
      let e := Z.min e1 e2 in
      s1 * 2 ^ (e1 - e) =? s2 * 2 ^ (e2 - e)
  | FInf n1, FInf n2 => Bool.eqb n1 n2
  | _, _ => false
  end.

Definition int_of_bool (b : bool) : Z := if b then 1 else 0.

(** [a == b] on the values that can be dict keys (numbers compare by
    value across int, bool and float). *)
Definition py_eq (a b : json) : bool :=
  match a, b with
  | JNull, JNull => true
  | JStr s, JStr t => text_eqb s t
  | JInt n, JInt k => n =? k
  | JInt n, JBool c => n =? int_of_bool c
  | JBool c, JInt n => int_of_bool c =? n
  | JBool c, JBool d => Bool.eqb c d
  | JFloat f, JInt k => float_eq_int f k
  | JInt k, JFloat f => float_eq_int f k
  | JFloat f, JBool c => float_eq_int f (int_of_bool c)
  | JBool c, JFloat f => float_eq_int f (int_of_bool c)
  | JFloat f, JFloat g => float_eq f g
  | _, _ => false
  end.

Definition hashable (v : json) : bool :=
  match v with
  | JArr _ | JObj _ => false
  | _ => true
  end.

(** [obj[key]] for a string key. *)
Fixpoint member (key : text) (kvs : list (text * json)) : option json :=
  match kvs with
  | [] => None
  | (k, v) :: rest => if text_eqb k key then Some v else member key rest
  end.

Definition getitem (obj : json) (key : text) : result json :=
  match obj with
  | JObj kvs =>
      match member key kvs with
      | Some v => Ok v
      | None => Raise KeyError
      end
  | _ => Raise TypeError
  end.

(** [obj[key] = v] on the members of an object. *)
Fixpoint set_member (key : text) (v : json) (kvs : list (text * json))
  : list (text * json) :=
  match kvs with
  | [] => [(key, v)]
  | (k, x) :: rest =>
      if text_eqb k key then (k, v) :: rest
      else (k, x) :: set_member key v rest
  end.

(** [for x in v]: the elements of a list, the keys of a dict, the
    characters of a string. *)
Definition py_iter (v : json) : result (list json) :=
  match v with
  | JArr l => Ok l
  | JObj kvs => Ok (map (fun kv => JStr (fst kv)) kvs)
  | JStr s => Ok (map (fun c => JStr [c]) s)
  | _ => Raise TypeError
  end.

(** [[f(x) for x in l]] *)
Fixpoint comprehension {A} (f : json -> result A) (l : list json)
  : result (list A) :=
  match l with
  | [] => Ok []
  | x :: rest =>
      y <- f x ;;
      ys <- comprehension f rest ;;
      Ok (y :: ys)
  end.

(** Dicts with keys of mixed types: the status tables. *)
Definition dict : Type := list (json * json).

Fixpoint dict_find (d : dict) (key : json) : option json :=
  match d with
  | [] => None
  | (k, v) :: rest => if py_eq k key then Some v else dict_find rest key
  end.

Fixpoint dict_set (d : dict) (key v : json) : dict :=
  match d with
  | [] => [(key, v)]
  | (k, x) :: rest =>
      if py_eq k key then (k, v) :: rest else (k, x) :: dict_set rest key v
  end.

(** [d.get(key, default)] *)
Definition dict_get (d : dict) (key default : json) : result json :=
  if hashable key
  then Ok (match dict_find d key with
           | Some v => v
           | None => default
           end)
  else Raise TypeError.

(** [d[key]] *)
Definition dict_getitem (d : dict) (key : json) : result json :=
  if hashable key
  then match dict_find d key with
       | Some v => Ok v
       | None => Raise KeyError
       end
  else Raise TypeError.

Definition _add_reverse_mapping (d : dict) : dict :=
  fold_left (fun d kv => dict_set d (snd kv) (fst kv)) d d.

(* ================================================================== *)
(** ** [json.loads]

    The decoder of the standard library, on its grammar: the literals
    [null], [true], [false], [NaN], [Infinity], [-Infinity]; numbers (an
    integer, or a float when a fraction or an exponent is present, rounded
    to the nearest binary64 value); strings with their escapes and, in
    strict mode, no control character; arrays; objects, where a repeated
    key keeps its place and takes the last value.  Any error is the
    decoder's ValueError. *)

Notation "' pat <- r ;; k" :=
  (bind r (fun x => match x with pat => k end))
  (at level 61, pat pattern, r at next level, right associativity) : py_scope.

Definition is_digit (c : Z) : bool := (48 <=? c) && (c <=? 57).

Fixpoint span_digits (s : text) : list Z * text :=
  match s with
  | [] => ([], [])
  | c :: rest =>
      if is_digit c
      then let '(ds, r) := span_digits rest in (c - 48 :: ds, r)
      else ([], s)
  end.

Definition dec_value (ds : list Z) : Z :=
  fold_left (fun a d => 10 * a + d) ds 0.

(** [num / den] rounded to the nearest integer, ties to even ([0 < den]). *)
Definition round_half_even (num den : Z) : Z :=
  let q := num / den in
  let r := num mod den in
  if 2 * r <? den then q
  else if den <? 2 * r then q + 1
  else if Z.even q then q else q + 1.

(** [float] of the decimal [m * 10^e10], [0 <= m]: binary64, round to
    nearest even, with gradual underflow and overflow to infinity. *)
Definition float_of_decimal (neg : bool) (m e10 : Z) : pyfloat :=
  if m <=? 0 then FFinite neg 0 0
  else
    let num := if 0 <=? e10 then m * 10 ^ e10 else m in
    let den := if 0 <=? e10 then 1 else 10 ^ (- e10) in
    let t := Z.log2 num - Z.log2 den in
    let ge := if 0 <=? t then den * 2 ^ t <=? num
              else den <=? num * 2 ^ (- t) in
    let ex := if ge then t else t - 1 in     (* 2^ex <= num/den < 2^(ex+1) *)
    let x := Z.max (ex - 52) (-1074) in      (* weight of the last bit *)
    let q := if 0 <=? x then round_half_even num (den * 2 ^ x)
             else round_half_even (num * 2 ^ (- x)) den in
    if (971 <? x) || ((x =? 971) && (2 ^ 53 <=? q)) then FInf neg
    else FFinite neg q x.

Fixpoint skip_ws (s : text) : text :=
  match s with
  | [] => []
  | c :: rest =>
      if (c =? 32) || (c =? 9) || (c =? 10) || (c =? 13)
      then skip_ws rest else s
  end.

Fixpoint starts_with (lit s : text) : option text :=
  match lit, s with
  | [], _ => Some s
  | l :: lit', c :: s' => if l =? c then starts_with lit' s' else None
  | _ :: _, [] => None
  end.

Definition scan_number (s : text) : option (json * text) :=
  let '(neg, s1) := match s with
                    | 45 :: r => (true, r)            (* - *)
                    | _ => (false, s)
                    end in
  match s1 with
  | [] => None
  | c :: r =>
      if is_digit c then
        let '(ids, s2) := if c =? 48 then ([0], r) else span_digits s1 in
        let '(fds, s3) :=
          match s2 with
          | 46 :: r2 =>                               (* . *)
              match span_digits r2 with
              | ([], _) => ([], s2)
              | (ds, r3) => (ds, r3)
              end
          | _ => ([], s2)
          end in
        let '(ex, s4) :=
          match s3 with
          | e :: r3 =>
              if (e =? 101) || (e =? 69) then         (* e E *)
                let '(eneg, r4) := match r3 with
                                   | 45 :: r' => (true, r')
                                   | 43 :: r' => (false, r')
                                   | _ => (false, r3)
                                   end in
                match span_digits r4 with
                | ([], _) => (None, s3)
                | (ds, r5) =>
                    (Some (if eneg then - dec_value ds else dec_value ds), r5)
                end
              else (None, s3)
          | [] => (None, s3)
          end in
        match fds, ex with
        | [], None =>
            Some (JInt (if neg then - dec_value ids else dec_value ids), s4)
        | _, _ =>
            let e10 := match ex with Some e => e | None => 0 end in
            Some (JFloat (float_of_decimal neg (dec_value (ids ++ fds))
                                           (e10 - Z.of_nat (length fds))),
                  s4)
        end
      else None
  end.

Definition scan_atom (s : text) : result (json * text) :=
  match starts_with (text_of "null") s with
  | Some r => Ok (JNull, r)
  | None =>
  match starts_with (text_of "true") s with
  | Some r => Ok (JBool true, r)
  | None =>
  match starts_with (text_of "false") s with
  | Some r => Ok (JBool false, r)
  | None =>
  match scan_number s with
  | Some x => Ok x
  | None =>
  match starts_with (text_of "NaN") s with
  | Some r => Ok (JFloat FNan, r)
  | None =>
  match starts_with (text_of "Infinity") s with
  | Some r => Ok (JFloat (FInf false), r)
  | None =>
  match starts_with (text_of "-Infinity") s with
  | Some r => Ok (JFloat (FInf true), r)
  | None => Raise ValueError
  end end end end end end end.

Definition hexval_cp (c : Z) : option Z :=
  if (0 <=? c) && (c <? 128) then hexval (ascii_of_N (Z.to_N c)) else None.

Definition hex4 (s : text) : option (Z * text) :=
  match s with
  | a :: b :: c :: d :: r =>
      match hexval_cp a, hexval_cp b, hexval_cp c, hexval_cp d with
      | Some x, Some y, Some z, Some w =>
          Some (((x * 16 + y) * 16 + z) * 16 + w, r)
      | _, _, _, _ => None
      end
  | _ => None
  end.

(** The body of a string, after its opening quote. *)
Fixpoint scanstring (fuel : nat) (s : text) (acc : text)
  : result (text * text) :=
  match fuel with
  | O => Raise ValueError
  | S f =>
      match s with
      | [] => Raise ValueError
      | c :: r =>
          if c =? 34 then Ok (rev acc, r)               (* closing quote *)
          else if c =? 92 then                          (* backslash *)
            match r with
            | [] => Raise ValueError
            | e :: r1 =>
                if e =? 117 then                        (* \uXXXX *)
                  match hex4 r1 with
                  | None => Raise ValueError
                  | Some (uni, r2) =>
                      let pair :=
                        if (55296 <=? uni) && (uni <=? 56319) then
                          match r2 with
                          | 92 :: 117 :: r3 =>
                              match hex4 r3 with
                              | Some (uni2, r4) =>
                                  if (56320 <=? uni2) && (uni2 <=? 57343)
                                  then Some (65536 + (uni - 55296) * 1024
                                             + (uni2 - 56320), r4)
                                  else None
                              | None => None
                              end
                          | _ => None
                          end
                        else None in
                      match pair with
                      | Some (cp, r4) => scanstring f r4 (cp :: acc)
                      | None => scanstring f r2 (uni :: acc)
                      end
                  end
                else
                  let simple (x : Z) := scanstring f r1 (x :: acc) in
                  if e =? 34 then simple 34
                  else if e =? 92 then simple 92
                  else if e =? 47 then simple 47
                  else if e =? 98 then simple 8
                  else if e =? 102 then simple 12
                  else if e =? 110 then simple 10
                  else if e =? 114 then simple 13
                  else if e =? 116 then simple 9
                  else Raise ValueError
            end
          else if c <? 32 then Raise ValueError         (* control char *)
          else scanstring f r (c :: acc)
      end
  end.

Fixpoint scan_value (fuel : nat) (s : text) : result (json * text) :=
  match fuel with
  | O => Raise ValueError
  | S f =>
      match s with
      | 34 :: r =>
          ' (str, r') <- scanstring (S (length r)) r [] ;;
          Ok (JStr str, r')
      | 123 :: r =>                                     (* { *)
          match skip_ws r with
          | 125 :: r' => Ok (JObj [], r')
          | r' => scan_members f r' []
          end
      | 91 :: r =>                                      (* [ *)
          match skip_ws r with
          | 93 :: r' => Ok (JArr [], r')
          | r' => scan_elements f r' []
          end
      | _ => scan_atom s
      end
  end
with scan_elements (fuel : nat) (s : text) (acc : list json)
  : result (json * text) :=
  match fuel with
  | O => Raise ValueError
  | S f =>
      ' (v, s1) <- scan_value f s ;;
      match skip_ws s1 with
      | 44 :: s2 => scan_elements f (skip_ws s2) (v :: acc)
      | 93 :: s2 => Ok (JArr (rev (v :: acc)), s2)
      | _ => Raise ValueError
      end
  end
with scan_members (fuel : nat) (s : text) (acc : list (text * json))
  : result (json * text) :=
  match fuel with
  | O => Raise ValueError
  | S f =>
      match s with
      | 34 :: r =>
          ' (key, s1) <- scanstring (S (length r)) r [] ;;
          match skip_ws s1 with
          | 58 :: s2 =>                                 (* : *)
              ' (v, s3) <- scan_value f (skip_ws s2) ;;
              let acc := set_member key v acc in
              match skip_ws s3 with
              | 44 :: s4 => scan_members f (skip_ws s4) acc
              | 125 :: s4 => Ok (JObj acc, s4)
              | _ => Raise ValueError
              end
          | _ => Raise ValueError
          end
      | _ => Raise ValueError
      end
  end.

Definition json_loads (s : text) : result json :=
  ' (v, rest) <- scan_value (2 * length s + 2) (skip_ws s) ;;
  match skip_ws rest with
  | [] => Ok v
  | _ => Raise ValueError
  end.

(* ================================================================== *)
(** ** The object graph *)

Module Path.

Record t : Type := { _dev : json; _status : json }.

Definition STATUS_UNKNOWN : Z := 0.
Definition STATUS_DOWN : Z := 2.
Definition STATUS_UP : Z := 3.
Definition STATUS_SHAKY : Z := 4.
Definition STATUS_GHOST : Z := 5.
Definition STATUS_PENDING : Z := 6.
Definition STATUS_TIMEOUT : Z := 7.
Definition STATUS_DELAYED : Z := 9.

Definition _STATUS_CONV : dict :=
  _add_reverse_mapping
    [ (JInt STATUS_UNKNOWN, JStr (text_of "undef"));
      (JInt STATUS_UP, JStr (text_of "ready"));
      (JInt STATUS_DOWN, JStr (text_of "faulty"));
      (JInt STATUS_SHAKY, JStr (text_of "shaky"));
      (JInt STATUS_GHOST, JStr (text_of "ghost"));
      (JInt STATUS_PENDING, JStr (text_of "i/o pending"));
      (JInt STATUS_TIMEOUT, JStr (text_of "i/o timeout"));
      (JInt STATUS_DELAYED, JStr (text_of "delayed")) ].

Definition _status_str_to_enum (status_str : json) : result json :=
  dict_get _STATUS_CONV status_str (JInt STATUS_UNKNOWN).

Definition __init__ (path : json) : result t :=
  dev <- getitem path (text_of "dev") ;;
  chk_st <- getitem path (text_of "chk_st") ;;
  status <- _status_str_to_enum chk_st ;;
  Ok {| _dev := dev; _status := status |}.

Definition blk_name (self : t) : json := _dev self.
Definition status (self : t) : json := _status self.
Definition status_string (self : t) : result json :=
  dict_getitem _STATUS_CONV (_status self).

End Path.

Module PathGroup.

Record t : Type := {
  _paths : list Path.t;
  _group : json;
  _pri : json;
  _selector : json;
  _status : json
}.

Definition STATUS_UNKNOWN : Z := 0.
Definition STATUS_ENABLED : Z := 1.
Definition STATUS_DISABLED : Z := 2.
Definition STATUS_ACTIVE : Z := 3.

Definition _STATUS_CONV : dict :=
  _add_reverse_mapping
    [ (JInt STATUS_UNKNOWN, JStr (text_of "undef"));
      (JInt STATUS_ENABLED, JStr (text_of "enabled"));
      (JInt STATUS_DISABLED, JStr (text_of "disabled"));
      (JInt STATUS_ACTIVE, JStr (text_of "active")) ].

Definition _status_str_to_enum (status_str : json) : result json :=
  dict_get _STATUS_CONV status_str (JInt STATUS_UNKNOWN).

Definition __init__ (pg : json) : result t :=
  raw_paths <- getitem pg (text_of "paths") ;;
  path_list <- py_iter raw_paths ;;
  paths <- comprehension Path.__init__ path_list ;;
  group <- getitem pg (text_of "group") ;;
  pri <- getitem pg (text_of "pri") ;;
  selector <- getitem pg (text_of "selector") ;;
  dm_st <- getitem pg (text_of "dm_st") ;;
  status <- _status_str_to_enum dm_st ;;
  Ok {| _paths := paths; _group := group; _pri := pri;
        _selector := selector; _status := status |}.

Definition id (self : t) : json := _group self.
Definition status (self : t) : json := _status self.
Definition status_string (self : t) : result json :=
  dict_getitem _STATUS_CONV (_status self).
Definition priority (self : t) : json := _pri self.
Definition selector (self : t) : json := _selector self.
Definition paths (self : t) : list Path.t := _paths self.

End PathGroup.

Module MPath.

Record t : Type := {
  _path_groups : list PathGroup.t;
  _uuid : json;
  _name : json;
  _sysfs : json
}.

Definition __init__ (mpath : json) : result t :=
  raw_groups <- getitem mpath (text_of "path_groups") ;;
  group_list <- py_iter raw_groups ;;
  path_groups <- comprehension PathGroup.__init__ group_list ;;
  uuid <- getitem mpath (text_of "uuid") ;;
  name <- getitem mpath (text_of "name") ;;
  sysfs <- getitem mpath (text_of "sysfs") ;;
  Ok {| _path_groups := path_groups; _uuid := uuid; _name := name;
        _sysfs := sysfs |}.

Definition wwid (self : t) : json := _uuid self.
Definition name (self : t) : json := _name self.
Definition path_groups (self : t) : list PathGroup.t := _path_groups self.

(** [rc = []; for pg in self.path_groups: rc.extend(pg.paths)] *)
Definition paths (self : t) : list Path.t :=
  fold_left (fun rc pg => rc ++ PathGroup.paths pg) (path_groups self) [].

Definition kdev_name (self : t) : json := _sysfs self.

End MPath.

(* ================================================================== *)
(** ** The socket

    The peer, the kernel and the process's memory are a script, the
    [world]: whether creating, connecting and sending fail, and what each
    [recv] meets.  [recv n] returns at most [n] bytes of the first chunk
    that has arrived and leaves the rest of it queued; with nothing left,
    the peer has closed and it returns no byte; where the script says so
    it raises (a time-out, a reset, MemoryError for a buffer that cannot
    be had). *)

Inductive event : Type :=
| Chunk (bs : list byte)     (* data arrives *)
| Fails (e : exn).           (* the call raises: time-out, reset, ... *)

Record world : Type := {
  socket_exn : option exn;
  connect_exn : option exn;
  sendall_exn : option exn;
  incoming : list event
}.

Record socket : Type := {
  is_open : bool;                 (* a descriptor is held *)
  timeout : option Z;
  peer : option text;             (* address connected to *)
  sent : list (list byte);        (* buffers handed to sendall *)
  inbox : list event
}.

(** Socket calls thread the socket's state and may raise. *)
Definition io (A : Type) : Type := socket -> result A * socket.

Definition ret {A} (a : A) : io A := fun s => (Ok a, s).

Definition lift {A} (r : result A) : io A := fun s => (r, s).

Definition io_bind {A B} (m : io A) (k : A -> io B) : io B :=
  fun s => match m s with
           | (Ok a, s') => k a s'
           | (Raise e, s') => (Raise e, s')
           end.

Notation "x <~ m ;; k" := (io_bind m (fun x => k))
  (at level 61, m at next level, right associativity) : py_scope.
Notation "m ;;; k" := (io_bind m (fun _ => k))
  (at level 61, right associativity) : py_scope.

Definition no_socket (w : world) : socket :=
  {| is_open := false; timeout := None; peer := None; sent := [];
     inbox := incoming w |}.

(** [socket.socket(socket.AF_UNIX, socket.SOCK_STREAM)] *)
Definition socket_socket (w : world) : io unit :=
  fun s => match socket_exn w with
           | Some e => (Raise e, s)
           | None => (Ok tt, {| is_open := true; timeout := timeout s;
                                 peer := peer s; sent := sent s;
                                 inbox := inbox s |})
           end.

Definition settimeout (t : Z) : io unit :=
  fun s => (Ok tt, {| is_open := is_open s; timeout := Some t;
                      peer := peer s; sent := sent s; inbox := inbox s |}).

Definition connect (w : world) (addr : text) : io unit :=
  fun s => match connect_exn w with
           | Some e => (Raise e, s)
           | None => (Ok tt, {| is_open := is_open s; timeout := timeout s;
                                 peer := Some addr; sent := sent s;
                                 inbox := inbox s |})
           end.

Definition sendall (w : world) (buff : list byte) : io unit :=
  fun s =>
    let s' := {| is_open := is_open s; timeout := timeout s; peer := peer s;
                 sent := sent s ++ [buff]; inbox := inbox s |} in
    match sendall_exn w with
    | Some e => (Raise e, s')
    | None => (Ok tt, s')
    end.

Definition with_inbox (s : socket) (q : list event) : socket :=
  {| is_open := is_open s; timeout := timeout s; peer := peer s;
     sent := sent s; inbox := q |}.

(** The largest size [recv] takes: CPython 2 parses the size into a C
    [int] and raises OverflowError beyond it, before it reads anything.
    [recv] below does not know that bound; the statements in which a
    [recv] of a declared length is to succeed keep the length within
    it. *)
Definition INT_MAX : Z := 2 ^ 31 - 1.

Definition recv (bufsize : Z) : io (list byte) :=
  fun s =>
    if bufsize <? 0 then (Raise ValueError, s)
    else match inbox s with
         | [] => (Ok [], s)
         | Fails e :: rest => (Raise e, with_inbox s rest)
         | Chunk bs :: rest =>
             let n := Z.to_nat bufsize in
             (Ok (firstn n bs),
              with_inbox s (match skipn n bs with
                            | [] => rest
                            | more => Chunk more :: rest
                            end))
         end.

Definition close : io unit :=
  fun s => (Ok tt, {| is_open := false; timeout := timeout s; peer := peer s;
                      sent := sent s; inbox := inbox s |}).

(* ================================================================== *)
(** ** The session and the query *)

Definition _IPC_ADDR : text :=
  0 :: text_of "/org/kernel/linux/storage/multipathd".

Definition _ipc_exec (pf : platform) (w : world) (cmd : text) : io text :=
  buff <~ lift (prefix <- _len_to_ssize_t_bytes
                            pf (Z.of_nat (length cmd) + 1) ;;
                body <- utf8_encode cmd ;;
                Ok (prefix ++ body ++ [x00])) ;;
  sendall w buff ;;;
  buff <~ recv (_IPC_LEN_SIZE pf) ;;
  match buff with
  | [] => ret []
  | _ =>
      output_len <~ lift (_bytes_to_len pf buff) ;;
      raw <~ recv output_len ;;
      output <~ lift (utf8_decode raw) ;;
      ret (strip [0] output)
  end.

(** The receiving half of [_ipc_exec] (lines 318-323), named for the
    statements that speak of it alone. *)
Definition receive (pf : platform) : io text :=
  buff <~ recv (_IPC_LEN_SIZE pf) ;;
  match buff with
  | [] => ret []
  | _ =>
      output_len <~ lift (_bytes_to_len pf buff) ;;
      raw <~ recv output_len ;;
      output <~ lift (utf8_decode raw) ;;
      ret (strip [0] output)
  end.

(** What a generator does when it is run to its end: the objects it
    yields, in order, and the exception that ends it, if one does. *)
Record run (A : Type) : Type := {
  yielded : list A;
  raised : option exn;
  sock : socket                  (* the query's socket, at the end *)
}.
Arguments yielded {A} r.
Arguments raised {A} r.
Arguments sock {A} r.

(** [for mpath in maps: yield MPath(mpath)] *)
Fixpoint yield_each (maps : list json) : list MPath.t * option exn :=
  match maps with
  | [] => ([], None)
  | mpath :: rest =>
      match MPath.__init__ mpath with
      | Raise e => ([], Some e)
      | Ok m => let '(ms, e) := yield_each rest in (m :: ms, e)
      end
  end.

(** Lines 340-347: from the text the session gave to the objects. *)
Definition generate (loads : text -> result json) (json_str : text)
  : list MPath.t * option exn :=
  if (length json_str =? 0)%nat then ([], None)
  else
    match loads json_str with
    | Raise e => ([], Some e)
    | Ok all_data =>
        match getitem all_data (text_of "major_version") with
        | Raise e => ([], Some e)
        | Ok version =>
            if negb (py_eq version (JInt _API_VERSION_MAJOR))
            then ([], Some (NameError "exception"))
                 (* [raise exception("incorrect version")]: the name
                    [exception] is bound nowhere *)
            else
              match (maps <- getitem all_data (text_of "maps") ;;
                     py_iter maps) with
              | Raise e => ([], Some e)
              | Ok maps => yield_each maps
              end
        end
    end.

(** Lines 335-339: the socket's life, up to the text received. *)
Definition exchange (pf : platform) (w : world) : io text :=
  socket_socket w ;;;
  settimeout 60 ;;;
  connect w _IPC_ADDR ;;;
  json_str <~ _ipc_exec pf w (text_of "show maps json") ;;
  close ;;;
  ret json_str.

(** The query, run to its end.  [loads] is [json.loads]. *)
Definition mpaths_get (pf : platform) (loads : text -> result json)
           (w : world) : run MPath.t :=
  match exchange pf w (no_socket w) with
  | (Raise e, s) => {| yielded := []; raised := Some e; sock := s |}
  | (Ok json_str, s) =>
      let '(ms, e) := generate loads json_str in
      {| yielded := ms; raised := e; sock := s |}
  end.

(* ================================================================== *)
(** ** Platforms, worlds and payloads the statements speak of *)

(** 64-bit little-endian, with and without the ["n"] format. *)
Definition linux64 : platform :=
  {| ssize_bytes := 8; byteorder := Little; struct_n := true |}.

Definition linux64_py2 : platform :=
  {| ssize_bytes := 8; byteorder := Little; struct_n := false |}.

(** A text written with ['] where it has a double quote. *)
Definition quoted (s : string) : text :=
  map (fun c => if c =? 39 then 34 else c) (text_of s).

(** The bytes of an ASCII text. *)
Definition ascii_bytes (t : text) : list byte := map byte_of t.

(** A world where nothing fails and [events] arrive. *)
Definition calm (events : list event) : world :=
  {| socket_exn := None; connect_exn := None; sendall_exn := None;
     incoming := events |}.

(** The query's socket once the request [frame] has gone out. *)
Definition requested (w : world) (frame : list byte) : socket :=
  {| is_open := true; timeout := Some 60; peer := Some _IPC_ADDR;
     sent := [frame]; inbox := incoming w |}.

Definition untroubled (w : world) : Prop :=
  socket_exn w = None /\ connect_exn w = None /\ sendall_exn w = None.

(** The peer sends [prefix] then [payload], in one piece or in two. *)
Definition delivers (w : world) (prefix payload : list byte) : Prop :=
  exists rest,
    (incoming w = Chunk (prefix ++ payload) :: rest /\ payload <> []) \/
    incoming w = Chunk prefix :: Chunk payload :: rest.

(** A response whose payload is empty: the peer closed before any length,
    or sent a whole length prefix (one that [recv] takes for a size) and
    closed, or declared the length zero. *)
Definition empty_response (pf : platform) (w : world) : Prop :=
  incoming w = [] \/
  exists prefix L rest,
    incoming w = Chunk prefix :: rest /\
    prefix <> [] /\ length prefix = ssize_bytes pf /\
    _bytes_to_len pf prefix = Ok L /\ 0 <= L <= INT_MAX /\
    (rest = [] \/ (L = 0 /\ exists bs more, rest = Chunk bs :: more)).

Definition show_maps_json : text := text_of "show maps json".

Definition one_map_payload : text :=
  quoted ("{'major_version':0,'maps':[{'uuid':'wwid1','name':'mpatha'," ++
          "'sysfs':'dm-0','path_groups':[{'group':1,'pri':10," ++
          "'selector':'service-time 0','dm_st':'active'," ++
          "'paths':[{'dev':'sda','chk_st':'ready'}," ++
          "{'dev':'sdb','chk_st':'ghost'}]}]}]}").

Definition sda : Path.t :=
  {| Path._dev := JStr (text_of "sda"); Path._status := JInt Path.STATUS_UP |}.

Definition sdb : Path.t :=
  {| Path._dev := JStr (text_of "sdb");
     Path._status := JInt Path.STATUS_GHOST |}.

(** The same map, announced under major version 1. *)
Definition version1_payload : text :=
  quoted ("{'major_version':1,'maps':[{'uuid':'wwid1','name':'mpatha'," ++
          "'sysfs':'dm-0','path_groups':[]}]}").

Definition no_maps_payload : text := quoted "{'major_version':0,'maps':[]}".

(** A payload with NUL bytes before and after the bytes of a text. *)
Definition padded (j k : nat) (t : text) : list byte :=
  repeat x00 j ++ ascii_bytes t ++ repeat x00 k.

(** The peer's answer to one query: the length, then the payload cut in
    the given pieces. *)
Definition answer (pf : platform) (pieces : list (list byte)) : list event :=
  match _len_to_ssize_t_bytes pf (Z.of_nat (length (concat pieces))) with
  | Ok prefix => Chunk prefix :: map Chunk pieces
  | Raise _ => []
  end.

(* ================================================================== *)
(** ** Status tables in general *)

(** A status table as the classes write it: integer codes to names. *)
Definition status_table (l : list (Z * text)) : dict :=
  map (fun kv => (JInt (fst kv), JStr (snd kv))) l.

(** The entries [_add_reverse_mapping] adds to it: names to codes. *)
Definition reversed_table (l : list (Z * text)) : dict :=
  map (fun kv => (JStr (snd kv), JInt (fst kv))) l.

(* ================================================================== *)
(** ** Bytes and hexadecimal digits *)

(** Settle a comparison [a <? b] of the goal that [lia] can decide. *)
Ltac settle_ltb :=
  match goal with
  | |- context [?a <? ?b] =>
      first [ replace (a <? b) with true by (symmetry; apply Z.ltb_lt; lia)
            | replace (a <? b) with false by (symmetry; apply Z.ltb_ge; lia) ]
  end.

Lemma byte_val_range (b : byte) : 0 <= byte_val b < 256.
Proof.
  unfold byte_val. pose proof (Byte.to_N_bounded b). lia.
Qed.

Lemma byte_val_of (z : Z) : byte_val (byte_of z) = z mod 256.
Proof.
  unfold byte_of, byte_val.
  pose proof (Z.mod_pos_bound z 256 ltac:(lia)) as Hz.
  destruct (Byte.of_N (Z.to_N (z mod 256))) as [b|] eqn:E.
  - apply Byte.to_of_N in E. rewrite E. lia.
  - apply Byte.of_N_None_iff in E. lia.
Qed.

Lemma byte_of_val (b : byte) : byte_of (byte_val b) = b.
Proof.
  unfold byte_of, byte_val.
  pose proof (Byte.to_N_bounded b).
  rewrite Z.mod_small by lia.
  rewrite N2Z.id, Byte.of_to_N. reflexivity.
Qed.

Lemma digit_cases (d : Z) :
  0 <= d < 16 ->
  d = 0 \/ d = 1 \/ d = 2 \/ d = 3 \/ d = 4 \/ d = 5 \/ d = 6 \/ d = 7 \/
  d = 8 \/ d = 9 \/ d = 10 \/ d = 11 \/ d = 12 \/ d = 13 \/ d = 14 \/ d = 15.
Proof. lia. Qed.

Lemma hexval_hexdigit (d : Z) : 0 <= d < 16 -> hexval (hexdigit d) = Some d.
Proof.
  intros H. apply digit_cases in H.
  repeat (destruct H as [H | H]; [subst d; reflexivity |]).
  subst d; reflexivity.
Qed.

Lemma hexval_range (c : ascii) (d : Z) : hexval c = Some d -> 0 <= d < 16.
Proof.
  unfold hexval. cbv zeta.
  repeat match goal with
         | |- context [if ?b then _ else _] => destruct b eqn:?
         end; intros [= <-]; lia.
Qed.

(* ================================================================== *)
(** ** Little-endian bytes *)

Lemma le_bytes_length (w : nat) (u : Z) : length (le_bytes w u) = w.
Proof. revert u; induction w; intros; simpl; auto. Qed.

Lemma le_value_range (bs : list byte) :
  0 <= le_value bs < 256 ^ Z.of_nat (length bs).
Proof.
  induction bs as [|b bs IH].
  - simpl. lia.
  - cbn [le_value length]. rewrite Nat2Z.inj_succ, Z.pow_succ_r by lia.
    pose proof (byte_val_range b). lia.
Qed.

Lemma le_value_le_bytes (w : nat) (u : Z) :
  le_value (le_bytes w u) = u mod 256 ^ Z.of_nat w.
Proof.
  revert u; induction w as [|w IH]; intros u.
  - simpl. now rewrite Z.mod_1_r.
  - cbn [le_bytes le_value]. rewrite byte_val_of, IH.
    rewrite Nat2Z.inj_succ, Z.pow_succ_r by lia.
    rewrite Z.rem_mul_r; [reflexivity | lia |].
    apply Z.pow_pos_nonneg; lia.
Qed.

Lemma le_value_app (l1 l2 : list byte) :
  le_value (l1 ++ l2) = le_value l1 + 256 ^ Z.of_nat (length l1) * le_value l2.
Proof.
  induction l1 as [|b l1 IH].
  - cbn [app le_value length]. change (Z.of_nat 0) with 0.
    rewrite Z.pow_0_r. lia.
  - cbn [app le_value length]. rewrite IH, Nat2Z.inj_succ, Z.pow_succ_r by lia.
    lia.
Qed.

Lemma native_involutive pf bs : native pf (native pf bs) = bs.
Proof. unfold native. destruct (byteorder pf); auto using rev_involutive. Qed.

Lemma native_length pf bs : length (native pf bs) = length bs.
Proof. unfold native. destruct (byteorder pf); auto using length_rev. Qed.

Lemma pow256 (w : Z) : 0 <= w -> 256 ^ w = 2 ^ (8 * w).
Proof.
  intros. change 256 with (2 ^ 8). now rewrite <- Z.pow_mul_r by lia.
Qed.

(* ================================================================== *)
(** ** The hex codec *)

Lemma list_pair_ind {A} (P : list A -> Prop) :
  P [] -> (forall a, P [a]) -> (forall a b l, P l -> P (a :: b :: l)) ->
  forall l, P l.
Proof.
  intros H0 H1 H2 l.
  enough (P l /\ forall a, P (a :: l)) by tauto.
  induction l as [|x l [IH1 IH2]]; split; auto.
Qed.

Lemma hex_value_app (a : Z) (s t : list ascii) :
  hex_value a (s ++ t) =
  match hex_value a s with
  | Some v => hex_value v t
  | None => None
  end.
Proof.
  revert a; induction s as [|c s IH]; intros a; simpl; auto.
  destruct (hexval c); auto.
Qed.

Lemma hex_value_zeros (k : nat) (s : list ascii) :
  hex_value 0 (repeat "0"%char k ++ s) = hex_value 0 s.
Proof. induction k; simpl; auto. Qed.

(** What [int(.., 16)] reads from the hex text of [bs] is the big-endian
    value of [bs]. *)
Lemma hex_value_hexlify (bs : list byte) (a : Z) :
  hex_value a (hexlify bs)
  = Some (a * 256 ^ Z.of_nat (length bs) + le_value (rev bs)).
Proof.
  revert a; induction bs as [|b bs IH]; intros a.
  - simpl. f_equal. lia.
  - pose proof (byte_val_range b) as Hb.
    cbn [hexlify flat_map app hex_value].
    rewrite !hexval_hexdigit
      by (first [ split; [apply Z.div_pos; lia | apply Z.div_lt_upper_bound; lia]
                | apply Z.mod_pos_bound; lia ]).
    fold (hexlify bs). rewrite IH.
    cbn [rev length]. rewrite le_value_app, length_rev.
    rewrite Nat2Z.inj_succ, Z.pow_succ_r by lia.
    cbn [le_value]. f_equal.
    pose proof (Z.div_mod (byte_val b) 16 ltac:(lia)). nia.
Qed.

Lemma int16_hexlify (bs : list byte) :
  int16 (hexlify bs)
  = match bs with
    | [] => Raise ValueError
    | _ => Ok (le_value (rev bs))
    end.
Proof.
  destruct bs as [|b bs]; [reflexivity|].
  unfold int16. destruct (hexlify (b :: bs)) eqn:E; [discriminate E|].
  rewrite <- E, hex_value_hexlify. reflexivity.
Qed.

(** [decode("hex")] succeeds on an even number of hex digits, and the
    bytes it gives spell the value of the text. *)
Lemma unhexlify_value (s : list ascii) :
  Nat.even (length s) = true ->
  forall a v, hex_value a s = Some v ->
  exists bs, unhexlify s = Ok bs /\
             length s = (2 * length bs)%nat /\
             v = a * 256 ^ Z.of_nat (length bs) + le_value (rev bs).
Proof.
  induction s as [| c | c1 c2 s IH] using list_pair_ind; intros Hev a v Hv.
  - exists []. simpl in *. inversion Hv. repeat split; lia.
  - discriminate.
  - cbn [hex_value] in Hv. cbn [unhexlify].
    destruct (hexval c1) as [x|] eqn:E1; [|discriminate].
    destruct (hexval c2) as [y|] eqn:E2; [|discriminate].
    apply hexval_range in E1, E2.
    destruct (IH Hev _ _ Hv) as (bs & -> & Hlen & ->).
    exists (byte_of (16 * x + y) :: bs). cbn [bind length rev].
    repeat split; [lia|].
    rewrite le_value_app, length_rev. cbn [le_value].
    rewrite byte_val_of, Z.mod_small by lia.
    rewrite Nat2Z.inj_succ, Z.pow_succ_r by lia. lia.
Qed.

Lemma hex_digits_acc (f : nat) (n : Z) (acc : list ascii) :
  hex_digits f n acc = hex_digits f n [] ++ acc.
Proof.
  revert n acc; induction f as [|f IH]; intros n acc; simpl; auto.
  destruct (n <? 16); auto.
  rewrite IH, (IH _ [_]), <- app_assoc. reflexivity.
Qed.

Lemma hex_digits_S (f : nat) (n : Z) (acc : list ascii) :
  hex_digits (S f) n acc =
  if n <? 16 then hexdigit n :: acc
  else hex_digits f (n / 16) (hexdigit (n mod 16) :: acc).
Proof. reflexivity. Qed.

Lemma hex_digits_value (f : nat) (n : Z) :
  0 <= n < 16 ^ Z.of_nat (S f) ->
  hex_value 0 (hex_digits (S f) n []) = Some n /\
  hex_digits (S f) n [] <> [].
Proof.
  revert n; induction f as [|f IH]; intros n Hn;
    rewrite !hex_digits_S with (acc := []); destruct (n <? 16) eqn:E;
    try (apply Z.ltb_lt in E; cbn [hex_value];
         rewrite hexval_hexdigit by lia;
         split; [f_equal; lia | discriminate]).
  - apply Z.ltb_ge in E. change (16 ^ Z.of_nat 1) with 16 in Hn. lia.
  - apply Z.ltb_ge in E.
    rewrite Nat2Z.inj_succ, Z.pow_succ_r in Hn by lia.
    destruct (IH (n / 16)) as [Hv Hne].
    { split; [apply Z.div_pos; lia | apply Z.div_lt_upper_bound; lia]. }
    rewrite hex_digits_acc. split.
    + rewrite hex_value_app, Hv. cbn [hex_value].
      rewrite hexval_hexdigit by (apply Z.mod_pos_bound; lia).
      f_equal. pose proof (Z.div_mod n 16 ltac:(lia)). lia.
    + destruct (hex_digits (S f) (n / 16) []); [congruence | discriminate].
Qed.

Lemma format_x_value (n : Z) :
  0 <= n -> hex_value 0 (format_x n) = Some n /\ format_x n <> [].
Proof.
  intros Hn. unfold format_x.
  destruct (n <? 0) eqn:E; [apply Z.ltb_lt in E; lia|].
  apply hex_digits_value. split; [lia|].
  rewrite Nat2Z.inj_succ, Z2Nat.id by apply Z.log2_nonneg.
  destruct (Z.eq_dec n 0) as [->|Hnz]; [reflexivity|].
  pose proof (Z.log2_spec n ltac:(lia)) as [_ Hlt].
  eapply Z.lt_le_trans; [exact Hlt|].
  change 16 with (2 ^ 4). rewrite <- Z.pow_mul_r by (pose proof (Z.log2_nonneg n); lia).
  apply Z.pow_le_mono_r; pose proof (Z.log2_nonneg n); lia.
Qed.

Lemma hex_value_first (a v : Z) (c : ascii) (s : list ascii) :
  hex_value a (c :: s) = Some v ->
  ((c =? "-")%char || (c =? "+")%char) = false.
Proof.
  cbn [hex_value]. destruct (hexval c) eqn:E; [|discriminate]. intros _.
  destruct (c =? "-")%char eqn:E1.
  { apply Ascii.eqb_eq in E1. subst c. discriminate. }
  destruct (c =? "+")%char eqn:E2.
  { apply Ascii.eqb_eq in E2. subst c. discriminate. }
  reflexivity.
Qed.

Lemma zfill_value (width : Z) (s : list ascii) (v : Z) :
  hex_value 0 s = Some v -> s <> [] -> Nat.even (length s) = true ->
  0 <= width -> Z.even width = true ->
  hex_value 0 (zfill width s) = Some v /\
  zfill width s <> [] /\
  Nat.even (length (zfill width s)) = true.
Proof.
  intros Hv Hne Hev Hw Hwe. unfold zfill.
  destruct s as [|c s]; [congruence|].
  rewrite (hex_value_first _ _ _ _ Hv).
  rewrite hex_value_zeros. split; [assumption|]. split.
  - destruct (repeat _ _); discriminate.
  - rewrite length_app, repeat_length.
    set (n := length (c :: s)) in *.
    destruct (Z_le_gt_dec width (Z.of_nat n)).
    + replace (Z.to_nat (width - Z.of_nat n)) with 0%nat by lia. assumption.
    + replace (Z.to_nat (width - Z.of_nat n) + n)%nat with (Z.to_nat width) by lia.
      rewrite <- (Z2Nat.id width), Z.even_spec in Hwe by lia.
      apply Nat.even_spec. destruct Hwe as [k Hk]. exists (Z.to_nat k). lia.
Qed.

(* ================================================================== *)
(** ** The two branches of the framing functions *)

Lemma ssize_half_lt_modulus pf (n : Z) :
  0 <= n < ssize_half pf ->
  (0 < ssize_bytes pf)%nat /\ n < ssize_modulus pf /\
  ssize_modulus pf = 256 ^ Z.of_nat (ssize_bytes pf).
Proof.
  unfold ssize_half, ssize_modulus, _IPC_LEN_SIZE. intros Hn.
  destruct (ssize_bytes pf) as [|w].
  - simpl in Hn. lia.
  - split; [lia|]. rewrite pow256 by lia. split; [|reflexivity].
    eapply Z.lt_le_trans; [apply Hn|]. apply Z.pow_le_mono_r; lia.
Qed.

Lemma struct_unpack_pack pf (n : Z) :
  struct_n pf = true -> 0 <= n < ssize_half pf ->
  exists bs, struct_pack_n pf n = Ok bs /\ struct_unpack_n pf bs = Ok n.
Proof.
  intros Hs Hn. destruct (ssize_half_lt_modulus pf n Hn) as (Hw & Hlt & Hm).
  unfold struct_pack_n, struct_unpack_n. rewrite Hs. cbn [negb].
  replace ((- ssize_half pf <=? n) && (n <? ssize_half pf)) with true
    by (symmetry; apply andb_true_iff; split;
        [apply Z.leb_le | apply Z.ltb_lt]; lia).
  eexists; split; [reflexivity|].
  rewrite native_length, le_bytes_length, Nat.eqb_refl.
  rewrite native_involutive, le_value_le_bytes, <- Hm.
  rewrite !(Z.mod_small n (ssize_modulus pf)) by lia.
  now settle_ltb.
Qed.

(** The [except] branch of the encoder: the bytes, before they are put in
    native order, spell [n] big-endian. *)
Lemma hex_fallback_encode pf (n : Z) :
  0 <= n ->
  exists bs,
    unhexlify (zfill (_IPC_LEN_SIZE pf * 2)
                     (repeat "0"%char (length (format_x n) mod 2)
                        ++ format_x n)) = Ok bs /\
    bs <> [] /\ le_value (rev bs) = n.
Proof.
  intros Hn. destruct (format_x_value n Hn) as [Hv Hne].
  set (h := format_x n) in *.
  assert (Hv' : hex_value 0 (repeat "0"%char (length h mod 2) ++ h) = Some n)
    by now rewrite hex_value_zeros.
  assert (Hne' : repeat "0"%char (length h mod 2) ++ h <> [])
    by (destruct (repeat _ _); [assumption | discriminate]).
  assert (Hev : Nat.even (length (repeat "0"%char (length h mod 2) ++ h)) = true).
  { rewrite length_app, repeat_length. apply Nat.even_spec.
    exists ((length h mod 2 + length h) / 2)%nat.
    pose proof (Nat.div_mod_eq (length h) 2).
    pose proof (Nat.mod_upper_bound (length h) 2 ltac:(lia)).
    pose proof (Nat.div_mod_eq (length h mod 2 + length h) 2).
    assert ((length h mod 2 + length h) mod 2 = 0)%nat; [|lia].
    rewrite Nat.Div0.add_mod_idemp_l.
    replace (length h + length h)%nat with (length h * 2)%nat by lia.
    apply Nat.Div0.mod_mul. }
  destruct (zfill_value (_IPC_LEN_SIZE pf * 2) _ n Hv' Hne' Hev)
    as (Hz & Hzne & Hzev).
  { unfold _IPC_LEN_SIZE; lia. }
  { rewrite Z.even_mul. apply orb_true_r. }
  destruct (unhexlify_value _ Hzev 0 n Hz) as (bs & Hbs & Hlen & Hval).
  exists bs. split; [assumption|]. split.
  - intros ->. simpl in Hlen.
    destruct (zfill _ _); [congruence | discriminate].
  - lia.
Qed.

Lemma struct_pack_n_unknown pf v :
  struct_n pf = false -> struct_pack_n pf v = Raise StructError.
Proof. unfold struct_pack_n. now intros ->. Qed.

Lemma struct_unpack_n_unknown pf bs :
  struct_n pf = false -> struct_unpack_n pf bs = Raise StructError.
Proof. unfold struct_unpack_n. now intros ->. Qed.

Lemma struct_unpack_n_size pf bs :
  length bs <> ssize_bytes pf -> struct_unpack_n pf bs = Raise StructError.
Proof.
  unfold struct_unpack_n. intros H. apply Nat.eqb_neq in H. rewrite H.
  now destruct (negb _).
Qed.

(** When [struct.unpack] raises, the decoder reads the bytes, whatever their
    number, as an unsigned integer in native order. *)
Lemma _bytes_to_len_fallback pf (bs : list byte) :
  struct_unpack_n pf bs = Raise StructError ->
  _bytes_to_len pf bs
  = match bs with
    | [] => Raise ValueError
    | _ => Ok (le_value (native pf bs))
    end.
Proof.
  intros H. unfold _bytes_to_len, native. rewrite H. cbn [except_struct_error].
  destruct (byteorder pf); rewrite int16_hexlify.
  - rewrite rev_involutive. destruct bs as [|b bs]; [reflexivity|].
    destruct (rev (b :: bs)) eqn:E; [|reflexivity].
    apply (f_equal (@length _)) in E. rewrite length_rev in E. discriminate.
  - reflexivity.
Qed.

Lemma roundtrip (pf : platform) (n : Z) :
  0 <= n < ssize_half pf ->
  (bs <- _len_to_ssize_t_bytes pf n ;; _bytes_to_len pf bs) = Ok n.
Proof.
  intros Hn. destruct (struct_n pf) eqn:Hs.
  - destruct (struct_unpack_pack pf n Hs Hn) as (bs & Hp & Hu).
    unfold _len_to_ssize_t_bytes, _bytes_to_len.
    rewrite Hp. cbn [except_struct_error bind]. now rewrite Hu.
  - destruct (hex_fallback_encode pf n (proj1 Hn)) as (bs & Hbs & Hne & Hv).
    unfold _len_to_ssize_t_bytes.
    rewrite struct_pack_n_unknown by assumption.
    cbn [except_struct_error]. rewrite Hbs. cbn [bind].
    rewrite _bytes_to_len_fallback by (now apply struct_unpack_n_unknown).
    unfold native. destruct (byteorder pf).
    + destruct (rev bs) eqn:E.
      * apply (f_equal (@length _)) in E. rewrite length_rev in E.
        destruct bs; [congruence | discriminate].
      * cbn [bind]. congruence.
    + rewrite Hv. destruct bs; [congruence | reflexivity].
Qed.

(* ================================================================== *)
(** ** The framing functions and the types of their objects *)

Lemma _len_to_ssize_t_bytes_object_struct pf (n : Z) (bs : list byte) :
  struct_pack_n pf n = Ok bs ->
  _len_to_ssize_t_bytes_object pf n = Ok (Bytes bs).
Proof. intros H. unfold _len_to_ssize_t_bytes_object. now rewrite H. Qed.

(** Where struct does not know ["n"], the typed encoder makes a bytearray
    of the bytes of [_len_to_ssize_t_bytes]. *)
Lemma _len_to_ssize_t_bytes_object_hex pf (n : Z) :
  struct_n pf = false ->
  _len_to_ssize_t_bytes_object pf n
  = (bs <- _len_to_ssize_t_bytes pf n ;; Ok (ByteArray bs)).
Proof.
  intros Hs. unfold _len_to_ssize_t_bytes_object, _len_to_ssize_t_bytes.
  rewrite struct_pack_n_unknown by assumption. rewrite Hs.
  cbn [bind except_struct_error].
  destruct (unhexlify _); reflexivity.
Qed.

(** On a [str] of Python 2 the typed decoder is [_bytes_to_len]. *)
Lemma _bytes_to_len_object_str pf (bs : list byte) :
  struct_n pf = false ->
  _bytes_to_len_object pf (Bytes bs) = _bytes_to_len pf bs.
Proof.
  intros Hs. unfold _bytes_to_len_object, _bytes_to_len. now rewrite Hs.
Qed.

Lemma _bytes_to_len_object_struct pf (o : byte_string) (v : Z) :
  struct_unpack_n pf (content o) = Ok v -> _bytes_to_len_object pf o = Ok v.
Proof. intros H. unfold _bytes_to_len_object. now rewrite H. Qed.

Lemma _bytes_to_len_object_bytearray pf (bs : list byte) :
  struct_unpack_n pf bs = Raise StructError ->
  _bytes_to_len_object pf (ByteArray bs) = Raise AttributeError.
Proof. intros H. unfold _bytes_to_len_object. cbn [content]. now rewrite H. Qed.

Lemma _bytes_to_len_object_no_codec pf (bs : list byte) :
  struct_n pf = true -> struct_unpack_n pf bs = Raise StructError ->
  _bytes_to_len_object pf (Bytes bs) = Raise AttributeError.
Proof.
  intros Hs H. unfold _bytes_to_len_object. cbn [content].
  now rewrite H, Hs.
Qed.

(* ================================================================== *)
(** ** Width of the encoded length *)

Lemma hex_digits_length (f : nat) (n k : Z) :
  0 <= n < 16 ^ k -> 1 <= k ->
  Z.of_nat (length (hex_digits f n [])) <= k.
Proof.
  revert n k; induction f as [|f IH]; intros n k Hn Hk.
  - simpl. lia.
  - rewrite hex_digits_S. destruct (n <? 16) eqn:E.
    + simpl. lia.
    + apply Z.ltb_ge in E. rewrite hex_digits_acc, length_app.
      assert (2 <= k).
      { destruct (Z.eq_dec k 1) as [->|]; [|lia].
        change (16 ^ 1) with 16 in Hn. lia. }
      specialize (IH (n / 16) (k - 1)).
      replace k with (Z.succ (k - 1)) in Hn by lia.
      rewrite Z.pow_succ_r in Hn by lia.
      cbn [length]. rewrite Nat2Z.inj_add.
      assert (Z.of_nat (length (hex_digits f (n / 16) [])) <= k - 1).
      { apply IH; [|lia].
        split; [apply Z.div_pos; lia | apply Z.div_lt_upper_bound; lia]. }
      change (Z.of_nat 1) with 1. lia.
Qed.

Lemma zfill_length (width : Z) (s : list ascii) (v : Z) :
  hex_value 0 s = Some v -> s <> [] ->
  length (zfill width s) = Nat.max (Z.to_nat width) (length s).
Proof.
  intros Hv Hne. unfold zfill. destruct s as [|c s]; [congruence|].
  rewrite (hex_value_first _ _ _ _ Hv), length_app, repeat_length. lia.
Qed.

Lemma _len_to_ssize_t_bytes_total pf (n : Z) :
  0 <= n -> exists bs, _len_to_ssize_t_bytes pf n = Ok bs.
Proof.
  intros Hn. unfold _len_to_ssize_t_bytes.
  destruct (struct_pack_n pf n) as [bs|e] eqn:E; [now exists bs|].
  assert (e = StructError) as ->.
  { unfold struct_pack_n in E.
    destruct (negb _); [congruence|]. destruct (_ && _); congruence. }
  cbn [except_struct_error].
  destruct (hex_fallback_encode pf n Hn) as (bs & -> & _). cbn [bind].
  eauto.
Qed.

Lemma _len_to_ssize_t_bytes_length pf (n : Z) (bs : list byte) :
  0 <= n < ssize_half pf -> _len_to_ssize_t_bytes pf n = Ok bs ->
  length bs = ssize_bytes pf /\ bs <> [].
Proof.
  intros Hn. destruct (ssize_half_lt_modulus pf n Hn) as (Hw & Hlt & Hm).
  enough (_len_to_ssize_t_bytes pf n = Ok bs -> length bs = ssize_bytes pf).
  { intros H'. specialize (H H'). split; [assumption|].
    intros ->. simpl in H. lia. }
  unfold _len_to_ssize_t_bytes. destruct (struct_n pf) eqn:Hs.
  - destruct (struct_unpack_pack pf n Hs Hn) as (bs' & Hp & _).
    rewrite Hp. cbn [except_struct_error]. intros [= <-].
    unfold struct_pack_n in Hp. rewrite Hs in Hp. cbn [negb] in Hp.
    destruct (_ && _); [|discriminate]. injection Hp as <-.
    now rewrite native_length, le_bytes_length.
  - rewrite struct_pack_n_unknown by assumption. cbn [except_struct_error].
    destruct (format_x_value n (proj1 Hn)) as [Hv Hne].
    set (h := format_x n) in *.
    assert (Hh : (length h <= 2 * ssize_bytes pf)%nat).
    { subst h. unfold format_x.
      destruct (n <? 0) eqn:E; [apply Z.ltb_lt in E; lia|].
      pose proof (hex_digits_length (S (Z.to_nat (Z.log2 n))) n
                    (2 * Z.of_nat (ssize_bytes pf))) as Hl.
      enough (0 <= n < 16 ^ (2 * Z.of_nat (ssize_bytes pf))) by lia.
      split; [lia|]. change 16 with (2 ^ 4).
      rewrite <- Z.pow_mul_r by lia.
      rewrite Hm, pow256 in Hlt by lia.
      now replace (4 * (2 * Z.of_nat (ssize_bytes pf)))
        with (8 * Z.of_nat (ssize_bytes pf)) by lia. }
    set (s0 := repeat "0"%char (length h mod 2) ++ h).
    assert (Hv0 : hex_value 0 s0 = Some n)
      by (subst s0; now rewrite hex_value_zeros).
    assert (Hne0 : s0 <> [])
      by (subst s0; destruct (repeat _ _); [assumption | discriminate]).
    assert (Hl0 : (length s0 <= 2 * ssize_bytes pf)%nat).
    { subst s0. rewrite length_app, repeat_length.
      pose proof (Nat.div_mod_eq (length h) 2).
      pose proof (Nat.mod_upper_bound (length h) 2 ltac:(lia)). lia. }
    pose proof (zfill_length (_IPC_LEN_SIZE pf * 2) s0 n Hv0 Hne0) as Hzl.
    destruct (unhexlify (zfill (_IPC_LEN_SIZE pf * 2) s0)) as [u|e] eqn:Eu;
      [|discriminate].
    cbn [bind]. intros [= <-].
    assert (Hlu : length (zfill (_IPC_LEN_SIZE pf * 2) s0) = (2 * length u)%nat).
    { clear - Eu. revert u Eu.
      induction (zfill (_IPC_LEN_SIZE pf * 2) s0) as [| c | c1 c2 s IH]
        using list_pair_ind; intros u Eu.
      - injection Eu as <-. reflexivity.
      - discriminate.
      - cbn [unhexlify] in Eu.
        destruct (hexval c1); [|discriminate].
        destruct (hexval c2); [|discriminate].
        destruct (unhexlify s) as [u'|]; [|discriminate].
        cbn [bind] in Eu. injection Eu as <-.
        cbn [length]. rewrite (IH u' eq_refl). lia. }
    unfold _IPC_LEN_SIZE in Hzl, Hlu.
    assert (length u = ssize_bytes pf) by lia.
    destruct (byteorder pf); [rewrite length_rev|]; assumption.
Qed.

(** Decoding the encoded length, as two facts. *)
Lemma _bytes_to_len_encoded pf (n : Z) (bs : list byte) :
  0 <= n < ssize_half pf -> _len_to_ssize_t_bytes pf n = Ok bs ->
  _bytes_to_len pf bs = Ok n.
Proof.
  intros Hn Hbs. pose proof (roundtrip pf n Hn) as H.
  now rewrite Hbs in H.
Qed.

(* ================================================================== *)
(** ** Text: UTF-8 on ASCII, and stripping *)

Lemma utf8_encode_ascii (t : text) :
  is_ascii t -> utf8_encode t = Ok (ascii_bytes t).
Proof.
  induction 1 as [|c t Hc _ IH]; [reflexivity|].
  cbn [utf8_encode ascii_bytes map]. unfold utf8_encode_char.
  do 2 settle_ltb.
  cbn [bind]. rewrite IH. reflexivity.
Qed.

Lemma ascii_bytes_length (t : text) : length (ascii_bytes t) = length t.
Proof. apply length_map. Qed.

(** ASCII bytes decode to themselves. *)
Lemma utf8_decode_ascii (t : text) :
  is_ascii t -> utf8_decode (ascii_bytes t) = Ok t.
Proof.
  induction 1 as [|c t Hc _ IH]; [reflexivity|].
  cbn [ascii_bytes map utf8_decode]. fold (ascii_bytes t).
  rewrite byte_val_of, Z.mod_small by lia.
  settle_ltb. rewrite IH. reflexivity.
Qed.

Lemma utf8_decode_nuls (j : nat) (bs : list byte) :
  utf8_decode (repeat x00 j ++ bs)
  = (t <- utf8_decode bs ;; Ok (repeat 0 j ++ t)).
Proof.
  induction j as [|j IH]; cbn [repeat app].
  - now destruct (utf8_decode bs).
  - cbn [utf8_decode]. change (byte_val x00 <? 128) with true. cbv iota.
    rewrite IH. now destruct (utf8_decode bs).
Qed.

Lemma utf8_decode_padded (j k : nat) (t : text) :
  is_ascii t -> utf8_decode (padded j k t) = Ok (repeat 0 j ++ t ++ repeat 0 k).
Proof.
  intros Ht. unfold padded. rewrite utf8_decode_nuls.
  assert (Hk : ascii_bytes t ++ repeat x00 k = ascii_bytes (t ++ repeat 0 k)).
  { unfold ascii_bytes. rewrite map_app. f_equal.
    induction k as [|k IH]; [reflexivity|]. cbn [repeat map]. now f_equal. }
  rewrite Hk, utf8_decode_ascii; [reflexivity|].
  apply Forall_app. split; [assumption|].
  apply Forall_forall. intros c Hc. apply repeat_spec in Hc. lia.
Qed.

Lemma lstrip_nul (t : text) : lstrip [0] (0 :: t) = lstrip [0] t.
Proof. reflexivity. Qed.

Lemma lstrip_nuls (k : nat) (t : text) :
  lstrip [0] (repeat 0 k ++ t) = lstrip [0] t.
Proof. induction k; [reflexivity | assumption]. Qed.

Lemma lstrip_app (chars t u : text) :
  lstrip chars t <> [] -> lstrip chars (t ++ u) = lstrip chars t ++ u.
Proof.
  induction t as [|c t IH]; cbn [lstrip app]; [congruence|].
  destruct (existsb _ chars); auto.
Qed.

Lemma lstrip_all (chars t u : text) :
  lstrip chars t = [] -> lstrip chars (t ++ u) = lstrip chars u.
Proof.
  induction t as [|c t IH]; cbn [lstrip app]; [reflexivity|].
  destruct (existsb _ chars); [auto | discriminate].
Qed.

(** [strip] takes NULs off both ends. *)
Lemma strip_nul_back (t : text) : strip [0] (t ++ [0]) = strip [0] t.
Proof.
  unfold strip, rstrip.
  destruct (lstrip [0] t) as [|c r] eqn:E.
  - rewrite lstrip_all by assumption. reflexivity.
  - rewrite lstrip_app by congruence. rewrite E.
    rewrite rev_app_distr. reflexivity.
Qed.

Lemma strip_nul_padding (j k : nat) (t : text) :
  hd_error t <> Some 0 -> hd_error (rev t) <> Some 0 ->
  strip [0] (repeat 0 j ++ t ++ repeat 0 k) = t.
Proof.
  intros Hh Hl. induction j as [|j IHj]; [|exact IHj].
  cbn [repeat app].
  induction k as [|k IHk]; cbn [repeat].
  - rewrite app_nil_r. unfold strip, rstrip.
    assert (Hkeep : forall u, hd_error u <> Some 0 -> lstrip [0] u = u).
    { intros [|x u] Hx; [reflexivity|]. cbn [lstrip existsb].
      destruct (Z.eqb_spec x 0) as [-> | _]; [now elim Hx | reflexivity]. }
    rewrite (Hkeep t Hh), (Hkeep _ Hl). apply rev_involutive.
  - replace (t ++ 0 :: repeat 0 k) with ((t ++ repeat 0 k) ++ [0]).
    + now rewrite strip_nul_back.
    + rewrite <- app_assoc. f_equal. clear.
      induction k as [|k IH]; [reflexivity|]. cbn [repeat app]. now f_equal.
Qed.

(* ================================================================== *)
(** ** Stepping through the socket calls *)

Lemma io_bind_ok {A B} (m : io A) (k : A -> io B) s a s' :
  m s = (Ok a, s') -> io_bind m k s = k a s'.
Proof. unfold io_bind. now intros ->. Qed.

Lemma io_bind_raise {A B} (m : io A) (k : A -> io B) s e s' :
  m s = (Raise e, s') -> io_bind m k s = (Raise e, s').
Proof. unfold io_bind. now intros ->. Qed.

Lemma recv_eof (n : Z) (s : socket) :
  0 <= n -> inbox s = [] -> recv n s = (Ok [], s).
Proof.
  intros Hn Hi. unfold recv. rewrite Hi. now settle_ltb.
Qed.

Lemma recv_chunk (n : Z) (s : socket) (bs : list byte) (rest : list event) :
  0 <= n -> inbox s = Chunk bs :: rest ->
  recv n s = (Ok (firstn (Z.to_nat n) bs),
              with_inbox s (match skipn (Z.to_nat n) bs with
                            | [] => rest
                            | more => Chunk more :: rest
                            end)).
Proof.
  intros Hn Hi. unfold recv. rewrite Hi. now settle_ltb.
Qed.

Lemma _ipc_exec_split pf w cmd :
  _ipc_exec pf w cmd =
  io_bind (lift (prefix <- _len_to_ssize_t_bytes
                             pf (Z.of_nat (length cmd) + 1) ;;
                 body <- utf8_encode cmd ;;
                 Ok (prefix ++ body ++ [x00])))
          (fun buff => io_bind (sendall w buff) (fun _ => receive pf)).
Proof. reflexivity. Qed.

(** With nothing failing, the query's socket goes out with one frame and
    the rest is the receiving half. *)
Lemma exchange_untroubled pf w :
  untroubled w ->
  exists prefix,
    _len_to_ssize_t_bytes pf 15 = Ok prefix /\
    exchange pf w (no_socket w) =
    match receive pf (requested w (prefix ++ ascii_bytes show_maps_json
                                          ++ [x00])) with
    | (Ok t, s) => (Ok t, snd (close s))
    | (Raise e, s) => (Raise e, s)
    end.
Proof.
  intros (Hs & Hc & Hd).
  destruct (_len_to_ssize_t_bytes_total pf 15 ltac:(lia)) as [prefix Hp].
  exists prefix. split; [assumption|].
  unfold exchange. rewrite _ipc_exec_split.
  change (Z.of_nat (length (text_of "show maps json")) + 1) with 15.
  rewrite Hp.
  change (utf8_encode (text_of "show maps json"))
    with (Ok (ascii_bytes show_maps_json)).
  unfold io_bind, socket_socket, settimeout, connect, sendall, lift, ret,
    no_socket, bind.
  rewrite Hs, Hc, Hd. cbn [is_open timeout peer sent inbox app].
  fold (requested w (prefix ++ ascii_bytes show_maps_json ++ [x00])).
  destruct (receive pf _) as [[t|e] s]; reflexivity.
Qed.

Lemma mpaths_get_untroubled pf loads w :
  untroubled w ->
  exists prefix,
    _len_to_ssize_t_bytes pf 15 = Ok prefix /\
    mpaths_get pf loads w =
    match receive pf (requested w (prefix ++ ascii_bytes show_maps_json
                                          ++ [x00])) with
    | (Ok t, s) => {| yielded := fst (generate loads t);
                      raised := snd (generate loads t);
                      sock := snd (close s) |}
    | (Raise e, s) => {| yielded := []; raised := Some e; sock := s |}
    end.
Proof.
  intros H. destruct (exchange_untroubled pf w H) as (prefix & Hp & He).
  exists prefix. split; [assumption|].
  unfold mpaths_get. rewrite He.
  destruct (receive pf _) as [[t|e] s]; [|reflexivity].
  now destruct (generate loads t).
Qed.

(** The receiving half, when the peer has closed without a word. *)
Lemma receive_eof pf (s : socket) :
  inbox s = [] -> receive pf s = (Ok [], s).
Proof.
  intros Hi. unfold receive.
  rewrite (io_bind_ok _ _ _ _ _ (recv_eof (_IPC_LEN_SIZE pf) s ltac:(unfold _IPC_LEN_SIZE; lia) Hi)).
  reflexivity.
Qed.

Lemma firstn_skipn_prefix {A} (l1 l2 : list A) :
  firstn (length l1) (l1 ++ l2) = l1 /\ skipn (length l1) (l1 ++ l2) = l2.
Proof.
  split.
  - rewrite firstn_app, Nat.sub_diag, firstn_all. cbn. apply app_nil_r.
  - rewrite skipn_app, Nat.sub_diag, skipn_all. reflexivity.
Qed.

(** The receiving half, when a whole length prefix is followed by a
    chunk: one [recv] for the prefix, one for the payload. *)
Lemma receive_delivered pf (s : socket) prefix payload rest L :
  (inbox s = Chunk (prefix ++ payload) :: rest /\ payload <> [] \/
   inbox s = Chunk prefix :: Chunk payload :: rest) ->
  length prefix = ssize_bytes pf -> prefix <> [] ->
  _bytes_to_len pf prefix = Ok L -> 0 <= L ->
  receive pf s =
  (t <- utf8_decode (firstn (Z.to_nat L) payload) ;; Ok (strip [0] t),
   with_inbox s (match skipn (Z.to_nat L) payload with
                 | [] => rest
                 | more => Chunk more :: rest
                 end)).
Proof.
  intros Hin Hlen Hne HL HL0.
  assert (H1 : recv (_IPC_LEN_SIZE pf) s
               = (Ok prefix, with_inbox s (Chunk payload :: rest))).
  { destruct Hin as [[Hin Hp] | Hin];
      rewrite (recv_chunk (_IPC_LEN_SIZE pf) s _ _ ltac:(unfold _IPC_LEN_SIZE; lia) Hin);
      unfold _IPC_LEN_SIZE; rewrite Nat2Z.id, <- Hlen.
    - destruct (firstn_skipn_prefix prefix payload) as [-> ->].
      destruct payload; [congruence | reflexivity].
    - rewrite firstn_all, skipn_all. reflexivity. }
  unfold receive. rewrite (io_bind_ok _ _ _ _ _ H1).
  destruct prefix as [|b prefix]; [congruence|].
  unfold lift at 1. unfold io_bind at 1. rewrite HL.
  rewrite (io_bind_ok _ _ _ _ _
             (recv_chunk L (with_inbox s (Chunk payload :: rest))
                         payload rest HL0 eq_refl)).
  unfold io_bind, lift, ret, bind.
  destruct (utf8_decode _); reflexivity.
Qed.

(* ================================================================== *)
(** ** What the socket calls leave untouched *)

Lemma recv_sent (n : Z) (s : socket) :
  sent (snd (recv n s)) = sent s /\ is_open (snd (recv n s)) = is_open s.
Proof.
  unfold recv. destruct (n <? 0); [auto|].
  destruct (inbox s) as [|[bs|e] rest]; auto.
Qed.

Lemma receive_sent pf (s : socket) :
  sent (snd (receive pf s)) = sent s /\
  is_open (snd (receive pf s)) = is_open s.
Proof.
  remember (receive pf s) as r eqn:Hr.
  unfold receive, io_bind, lift, ret in Hr.
  destruct (recv_sent (_IPC_LEN_SIZE pf) s) as [H1 H2].
  destruct (recv (_IPC_LEN_SIZE pf) s) as [[buff|e] s1];
    cbn [snd] in H1, H2; [|subst r; auto].
  destruct buff as [|b buff]; [subst r; auto|].
  destruct (_bytes_to_len pf (b :: buff)) as [L|e]; [|subst r; auto].
  destruct (recv_sent L s1) as [H3 H4].
  destruct (recv L s1) as [[raw|e] s2]; cbn [snd] in H3, H4;
    [|subst r; cbn [snd]; split; congruence].
  destruct (utf8_decode raw); subst r; cbn [snd]; split; congruence.
Qed.

Lemma _ipc_exec_sent pf w cmd s prefix body :
  _len_to_ssize_t_bytes pf (Z.of_nat (length cmd) + 1) = Ok prefix ->
  utf8_encode cmd = Ok body ->
  sent (snd (_ipc_exec pf w cmd s)) = sent s ++ [prefix ++ body ++ [x00]].
Proof.
  intros Hp Hb. rewrite _ipc_exec_split, Hp, Hb.
  unfold io_bind, lift, bind, sendall.
  destruct (sendall_exn w); [reflexivity|].
  match goal with |- context [receive pf ?s1] =>
    destruct (receive_sent pf s1) as [H _];
    destruct (receive pf s1) as [[t|e] s2]; cbn [snd] in *; exact H
  end.
Qed.

(* ================================================================== *)
(** ** The generator's pure half *)

Lemma generate_empty loads : generate loads [] = ([], None).
Proof. reflexivity. Qed.

Lemma text_eqb_eq (a b : text) : text_eqb a b = true <-> a = b.
Proof.
  revert b; induction a as [|x a IH]; intros [|y b]; cbn [text_eqb];
    try (split; [discriminate | congruence]); [tauto|].
  rewrite andb_true_iff, Z.eqb_eq, IH. split; [intros [-> ->] | intros [= -> ->]]; auto.
Qed.

Lemma py_eq_str (k : json) (s : text) : py_eq k (JStr s) = true -> k = JStr s.
Proof.
  destruct k; cbn [py_eq]; try discriminate.
  intros H. apply text_eqb_eq in H. congruence.
Qed.

Lemma dict_find_absent (d : dict) (s : text) :
  ~ In (JStr s) (map fst d) -> dict_find d (JStr s) = None.
Proof.
  induction d as [|[k v] d IH]; cbn [dict_find map fst In]; [reflexivity|].
  intros H. destruct (py_eq k (JStr s)) eqn:E.
  - apply py_eq_str in E. tauto.
  - apply IH. tauto.
Qed.

(* ================================================================== *)
(** ** The embedding at work *)

Example frame_of_15 :
  _len_to_ssize_t_bytes linux64 15
  = Ok [x0f; x00; x00; x00; x00; x00; x00; x00] /\
  _len_to_ssize_t_bytes linux64_py2 15
  = Ok [x0f; x00; x00; x00; x00; x00; x00; x00].
Proof. split; reflexivity. Qed.

Example minus_one_on_the_wire :
  _bytes_to_len linux64 [xff; xff; xff; xff; xff; xff; xff; xff] = Ok (-1) /\
  _bytes_to_len linux64_py2 [xff; xff; xff; xff; xff; xff; xff; xff]
  = Ok (2 ^ 64 - 1).
Proof. split; reflexivity. Qed.

Example loads_repeated_key :
  json_loads (quoted " {'a': [1, -2, true, null], 'b': 'x', 'a': 0} ")
  = Ok (JObj [(text_of "a", JInt 0); (text_of "b", JStr (text_of "x"))]).
Proof. reflexivity. Qed.

Example loads_one_tenth :
  json_loads (text_of "0.1")
  = Ok (JFloat (FFinite false 7205759403792794 (-56))).
Proof. vm_compute. reflexivity. Qed.

Example loads_rejects :
  json_loads (text_of "[1,]") = Raise ValueError /\
  json_loads (text_of "01") = Raise ValueError /\
  json_loads [] = Raise ValueError.
Proof. repeat split; reflexivity. Qed.

Example reverse_mapping :
  dict_find Path._STATUS_CONV (JStr (text_of "ghost")) = Some (JInt 5) /\
  dict_find Path._STATUS_CONV (JInt 5) = Some (JStr (text_of "ghost")) /\
  dict_find PathGroup._STATUS_CONV (JStr (text_of "active")) = Some (JInt 3).
Proof. repeat split; reflexivity. Qed.

(* ================================================================== *)
(** ** The claims *)

(** C1.  When the peer answers the query with the one-map payload of the
    specification (its length first, then the payload whole), [mpaths_get]
    ends without an exception having yielded exactly one MPath: wwid
    "wwid1", name "mpatha", kernel device "dm-0", one PathGroup with id 1,
    priority 10 and status STATUS_ACTIVE holding the Paths ("sda",
    STATUS_UP) and ("sdb", STATUS_GHOST) in that order; the flattened
    [MPath.paths] gives the same two Paths in the same order. *)
Theorem one_map_end_to_end (pf : platform) (w : world) (prefix : list byte) :
  untroubled w ->
  Z.of_nat (length (ascii_bytes one_map_payload)) < ssize_half pf ->
  _len_to_ssize_t_bytes
    pf (Z.of_nat (length (ascii_bytes one_map_payload))) = Ok prefix ->
  delivers w prefix (ascii_bytes one_map_payload) ->
  raised (mpaths_get pf json_loads w) = None /\
  exists m pg,
    yielded (mpaths_get pf json_loads w) = [m] /\
    MPath.wwid m = JStr (text_of "wwid1") /\
    MPath.name m = JStr (text_of "mpatha") /\
    MPath.kdev_name m = JStr (text_of "dm-0") /\
    MPath.path_groups m = [pg] /\
    PathGroup.id pg = JInt 1 /\
    PathGroup.priority pg = JInt 10 /\
    PathGroup.status pg = JInt PathGroup.STATUS_ACTIVE /\
    PathGroup.paths pg = [sda; sdb] /\
    Path.blk_name sda = JStr (text_of "sda") /\
    Path.status sda = JInt Path.STATUS_UP /\
    Path.blk_name sdb = JStr (text_of "sdb") /\
    Path.status sdb = JInt Path.STATUS_GHOST /\
    MPath.paths m = [sda; sdb].
Proof.
  intros Hw Hlt Hp [rest Hd].
  destruct (mpaths_get_untroubled pf json_loads w Hw) as (p15 & _ & ->).
  pose proof (conj (Nat2Z.is_nonneg (length (ascii_bytes one_map_payload)))
                   Hlt) as Hn.
  destruct (_len_to_ssize_t_bytes_length pf _ prefix Hn Hp) as [Hlen Hne].
  pose proof (_bytes_to_len_encoded pf _ prefix Hn Hp) as HL.
  match goal with |- context [receive pf ?s] =>
    rewrite (receive_delivered pf s prefix (ascii_bytes one_map_payload) rest
               _ Hd Hlen Hne HL (proj1 Hn))
  end.
  rewrite Nat2Z.id, firstn_all.
  set (t := bind (utf8_decode (ascii_bytes one_map_payload)) _).
  vm_compute in t. subst t. cbv iota.
  set (g := generate json_loads _). vm_compute in g. subst g.
  cbn [yielded raised fst snd]. split; [reflexivity|].
  do 2 eexists. repeat (split; [reflexivity|]). reflexivity.
Qed.

Lemma one_map_end_to_end_witness :
  raised (mpaths_get linux64 json_loads
            (calm (answer linux64 [ascii_bytes one_map_payload]))) = None /\
  exists m pg,
    yielded (mpaths_get linux64 json_loads
               (calm (answer linux64 [ascii_bytes one_map_payload]))) = [m] /\
    MPath.wwid m = JStr (text_of "wwid1") /\
    MPath.name m = JStr (text_of "mpatha") /\
    MPath.kdev_name m = JStr (text_of "dm-0") /\
    MPath.path_groups m = [pg] /\
    PathGroup.id pg = JInt 1 /\
    PathGroup.priority pg = JInt 10 /\
    PathGroup.status pg = JInt PathGroup.STATUS_ACTIVE /\
    PathGroup.paths pg = [sda; sdb] /\
    Path.blk_name sda = JStr (text_of "sda") /\
    Path.status sda = JInt Path.STATUS_UP /\
    Path.blk_name sdb = JStr (text_of "sdb") /\
    Path.status sdb = JInt Path.STATUS_GHOST /\
    MPath.paths m = [sda; sdb].
Proof.
  apply (one_map_end_to_end
           linux64 (calm (answer linux64 [ascii_bytes one_map_payload]))
           (le_bytes 8 230)).
  - repeat split.
  - vm_compute. reflexivity.
  - vm_compute. reflexivity.
  - exists []. right. vm_compute. reflexivity.
Defined.

(** C2, as the code has it.  For every non-negative length [n] that fits
    the platform's signed size type, the encoder returns a byte string
    whose bytes, read back as the immutable byte string that [recv]
    returns, decode to [n].  The decoder applied to the very object the
    encoder returned, [_bytes_to_len(_len_to_ssize_t_bytes(n))], gives [n]
    where struct knows ["n"] and raises AttributeError where it does not
    (Python 2): there the encoder returns a bytearray, which has no
    [encode]. *)
Theorem length_roundtrip (pf : platform) (n : Z) :
  0 <= n < ssize_half pf ->
  exists o,
    _len_to_ssize_t_bytes_object pf n = Ok o /\
    _bytes_to_len_object pf (Bytes (content o)) = Ok n /\
    _bytes_to_len_object pf o
    = (if struct_n pf then Ok n else Raise AttributeError).
Proof.
  intros Hn. destruct (struct_n pf) eqn:Hs.
  - destruct (struct_unpack_pack pf n Hs Hn) as (bs & Hp & Hu).
    exists (Bytes bs).
    split; [now apply _len_to_ssize_t_bytes_object_struct|].
    split; now apply _bytes_to_len_object_struct.
  - destruct (_len_to_ssize_t_bytes_total pf n (proj1 Hn)) as [bs Hbs].
    exists (ByteArray bs).
    split; [now rewrite _len_to_ssize_t_bytes_object_hex, Hbs|].
    cbn [content]. split.
    + rewrite _bytes_to_len_object_str by assumption.
      now apply _bytes_to_len_encoded.
    + now apply _bytes_to_len_object_bytearray, struct_unpack_n_unknown.
Qed.

Lemma length_roundtrip_witness :
  exists o,
    _len_to_ssize_t_bytes_object linux64_py2 16 = Ok o /\
    _bytes_to_len_object linux64_py2 (Bytes (content o)) = Ok 16 /\
    _bytes_to_len_object linux64_py2 o
    = (if struct_n linux64_py2 then Ok 16 else Raise AttributeError).
Proof.
  apply (length_roundtrip linux64_py2 16).
  vm_compute. split; [discriminate | reflexivity].
Defined.

(** C2 as stated fails where struct does not know ["n"]: the encoding of 16
    is a bytearray, and the decoder, given it, ends in AttributeError. *)
Lemma encoded_bytearray_is_not_decoded :
  0 <= 16 < ssize_half linux64_py2 /\
  _len_to_ssize_t_bytes_object linux64_py2 16
  = Ok (ByteArray [x10; x00; x00; x00; x00; x00; x00; x00]) /\
  (o <- _len_to_ssize_t_bytes_object linux64_py2 16 ;;
   _bytes_to_len_object linux64_py2 o) = Raise AttributeError.
Proof.
  split; [vm_compute; split; [discriminate | reflexivity]|].
  split; reflexivity.
Qed.

(** C3 (the code departs from it).  On a response whose major_version is
    1, [mpaths_get] yields no MPath and reads no map, but the exception
    that ends it is the NameError of the unbound name [exception], not a
    version-mismatch error. *)
Theorem version_mismatch_is_a_NameError :
  let w := calm (answer linux64 [ascii_bytes version1_payload]) in
  (exists tree,
      json_loads version1_payload = Ok tree /\
      getitem tree (text_of "major_version") = Ok (JInt 1)) /\
  raised (mpaths_get linux64 json_loads w) = Some (NameError "exception") /\
  yielded (mpaths_get linux64 json_loads w) = [].
Proof.
  split; [eexists; split; vm_compute; reflexivity|].
  split; vm_compute; reflexivity.
Qed.

(** C4.  When nothing fails and the response payload is empty (the peer
    closed before sending a length, or sent a whole length prefix,
    declaring no more than [recv] takes for a size, and nothing more, or
    declared the length zero), [mpaths_get] yields nothing and raises
    nothing, whatever the JSON decoder. *)
Theorem empty_response_is_no_maps
        (pf : platform) (loads : text -> result json) (w : world) :
  untroubled w -> empty_response pf w ->
  yielded (mpaths_get pf loads w) = [] /\
  raised (mpaths_get pf loads w) = None.
Proof.
  intros Hw He.
  destruct (mpaths_get_untroubled pf loads w Hw) as (p15 & _ & ->).
  match goal with |- context [receive pf ?s] => set (s0 := s) end.
  enough (H : exists s', receive pf s0 = (Ok [], s')).
  { destruct H as [s' ->]. split; reflexivity. }
  destruct He as [He | (prefix & L & rest & He & Hne & Hlen & HL & HL0 & Hr)].
  - eexists. apply receive_eof. exact He.
  - unfold receive.
    rewrite (io_bind_ok _ _ _ _ _
               (recv_chunk (_IPC_LEN_SIZE pf) s0 prefix rest
                           ltac:(unfold _IPC_LEN_SIZE; lia) He)).
    unfold _IPC_LEN_SIZE. rewrite Nat2Z.id.
    rewrite firstn_all2, skipn_all2 by lia.
    destruct prefix as [|b prefix]; [congruence|].
    unfold lift at 1. unfold io_bind at 1. rewrite HL.
    destruct Hr as [-> | (-> & bs & more & ->)].
    + rewrite (io_bind_ok _ _ _ _ _
                 (recv_eof L (with_inbox s0 []) (proj1 HL0) eq_refl)).
      eexists. reflexivity.
    + rewrite (io_bind_ok _ _ _ _ _
                 (recv_chunk 0 (with_inbox s0 (Chunk bs :: more)) bs more
                             ltac:(lia) eq_refl)).
      eexists. reflexivity.
Qed.

Lemma empty_response_is_no_maps_witness :
  yielded (mpaths_get linux64 json_loads (calm [])) = [] /\
  raised (mpaths_get linux64 json_loads (calm [])) = None.
Proof.
  apply (empty_response_is_no_maps linux64 json_loads (calm [])).
  - repeat split.
  - left. reflexivity.
Defined.

Lemma close_sent (s : socket) : sent (snd (close s)) = sent s.
Proof. reflexivity. Qed.

Lemma exchange_sent pf w prefix :
  socket_exn w = None -> connect_exn w = None ->
  _len_to_ssize_t_bytes pf 15 = Ok prefix ->
  sent (snd (exchange pf w (no_socket w)))
  = [prefix ++ ascii_bytes show_maps_json ++ [x00]].
Proof.
  intros Hs Hc Hp. unfold exchange.
  unfold io_bind at 1. unfold socket_socket. rewrite Hs.
  unfold io_bind at 1. unfold settimeout.
  unfold io_bind at 1. unfold connect. rewrite Hc.
  unfold io_bind at 1.
  match goal with |- context [_ipc_exec pf w ?c ?s] =>
    pose proof (_ipc_exec_sent pf w c s prefix (ascii_bytes show_maps_json)
                  Hp eq_refl) as H;
    destruct (_ipc_exec pf w c s) as [[t|e] s']
  end; cbn [snd] in H; [|exact H].
  unfold io_bind, close, ret. cbn [snd sent]. exact H.
Qed.

(** C5, as the code has it.  For every command made of ASCII characters,
    [_ipc_exec] hands to [sendall] exactly one frame: the encoding of (the
    byte length of the UTF-8 command + 1), the UTF-8 bytes of the command,
    and one NUL byte.  In particular the query, once connected, sends for
    the 14-character command "show maps json" the encoding of 15, the 14
    command bytes and one NUL byte. *)
Theorem request_frame (pf : platform) (w : world) :
  (forall (cmd : text) (s : socket),
      is_ascii cmd ->
      exists prefix body,
        utf8_encode cmd = Ok body /\
        _len_to_ssize_t_bytes pf (Z.of_nat (length body) + 1) = Ok prefix /\
        sent (snd (_ipc_exec pf w cmd s))
        = sent s ++ [prefix ++ body ++ [x00]]) /\
  (forall loads : text -> result json,
      socket_exn w = None -> connect_exn w = None ->
      exists prefix,
        _len_to_ssize_t_bytes pf 15 = Ok prefix /\
        length show_maps_json = 14%nat /\
        utf8_encode show_maps_json = Ok (ascii_bytes show_maps_json) /\
        length (ascii_bytes show_maps_json) = 14%nat /\
        sent (sock (mpaths_get pf loads w))
        = [prefix ++ ascii_bytes show_maps_json ++ [x00]]).
Proof.
  split.
  - intros cmd s Hcmd.
    destruct (_len_to_ssize_t_bytes_total
                pf (Z.of_nat (length cmd) + 1) ltac:(lia)) as [prefix Hp].
    exists prefix, (ascii_bytes cmd).
    rewrite ascii_bytes_length.
    split; [now apply utf8_encode_ascii|]. split; [assumption|].
    apply _ipc_exec_sent; [assumption | now apply utf8_encode_ascii].
  - intros loads Hs Hc.
    destruct (_len_to_ssize_t_bytes_total pf 15 ltac:(lia)) as [prefix Hp].
    exists prefix. repeat (split; [first [assumption | reflexivity]|]).
    pose proof (exchange_sent pf w prefix Hs Hc Hp) as H.
    unfold mpaths_get.
    destruct (exchange pf w (no_socket w)) as [[t|e] s]; cbn [snd] in H.
    + now destruct (generate loads t).
    + exact H.
Qed.

Lemma request_frame_witness :
  exists prefix body,
    utf8_encode show_maps_json = Ok body /\
    _len_to_ssize_t_bytes linux64 (Z.of_nat (length body) + 1) = Ok prefix /\
    sent (snd (_ipc_exec linux64 (calm []) show_maps_json
                         (no_socket (calm []))))
    = sent (no_socket (calm [])) ++ [prefix ++ body ++ [x00]].
Proof.
  apply (proj1 (request_frame linux64 (calm []))
               show_maps_json (no_socket (calm []))).
  unfold is_ascii. vm_compute. repeat constructor; discriminate.
Defined.

(** C5 as stated fails.  The command "show maps json" has 14 characters,
    so its frame starts with the encoding of 15, not of 16, and carries
    14 command bytes, not 15; and for a command outside ASCII the length
    sent counts characters, not UTF-8 bytes. *)
Lemma show_maps_json_is_not_15_characters :
  let frames := sent (sock (mpaths_get linux64 json_loads (calm []))) in
  ~ (exists prefix body,
        _len_to_ssize_t_bytes linux64 16 = Ok prefix /\
        length body = 15%nat /\
        frames = [prefix ++ body ++ [x00]]) /\
  frames = [le_bytes 8 15 ++ ascii_bytes show_maps_json ++ [x00]] /\
  length (ascii_bytes show_maps_json) = 14%nat /\
  utf8_encode [233] = Ok [xc3; xa9] /\
  sent (snd (_ipc_exec linux64 (calm []) [233] (no_socket (calm []))))
  = [le_bytes 8 2 ++ [xc3; xa9] ++ [x00]].
Proof.
  cbv zeta. split.
  - intros (prefix & body & Hp & Hb & Hf).
    vm_compute in Hp. injection Hp as <-.
    vm_compute in Hf. discriminate Hf.
  - repeat split; vm_compute; reflexivity.
Qed.

(** C6.  A string that is not a key of the status table is converted to
    STATUS_UNKNOWN (0), without an exception, by the Path table and by the
    PathGroup table alike. *)
Theorem unknown_status_string (s : text) :
  (~ In (JStr s) (map fst Path._STATUS_CONV) ->
   Path._status_str_to_enum (JStr s) = Ok (JInt 0)) /\
  (~ In (JStr s) (map fst PathGroup._STATUS_CONV) ->
   PathGroup._status_str_to_enum (JStr s) = Ok (JInt 0)).
Proof.
  split; intros H;
    [unfold Path._status_str_to_enum | unfold PathGroup._status_str_to_enum];
    unfold dict_get; cbn [hashable];
    rewrite (dict_find_absent _ s H); reflexivity.
Qed.

Lemma unknown_status_string_witness :
  Path._status_str_to_enum (JStr (text_of "bogus")) = Ok (JInt 0) /\
  PathGroup._status_str_to_enum (JStr (text_of "bogus")) = Ok (JInt 0).
Proof.
  split.
  - apply (proj1 (unknown_status_string (text_of "bogus"))).
    vm_compute. intuition discriminate.
  - apply (proj2 (unknown_status_string (text_of "bogus"))).
    vm_compute. intuition discriminate.
Defined.

(** C7, as the code has it.  A byte sequence that is not exactly as wide
    as the signed size type meets no width check: struct.error is caught
    and the [except] branch runs.  Where struct does not know ["n"]
    (Python 2) the branch reads a [str] as an unsigned integer in native
    byte order, and only the empty one fails (ValueError); where struct
    knows ["n"] (Python 3) the branch raises AttributeError, [bytes]
    having no [encode]; and so it does for a bytearray, everywhere. *)
Theorem wrong_width_is_no_frame_error (pf : platform) (bs : list byte) :
  length bs <> ssize_bytes pf ->
  _bytes_to_len_object pf (Bytes bs)
  = (if struct_n pf then Raise AttributeError
     else match bs with
          | [] => Raise ValueError
          | _ => Ok (le_value (native pf bs))
          end) /\
  _bytes_to_len_object pf (ByteArray bs) = Raise AttributeError.
Proof.
  intros H. apply struct_unpack_n_size in H. split.
  - destruct (struct_n pf) eqn:Hs.
    + now apply _bytes_to_len_object_no_codec.
    + rewrite _bytes_to_len_object_str by assumption.
      now apply _bytes_to_len_fallback.
  - now apply _bytes_to_len_object_bytearray.
Qed.

Lemma wrong_width_is_no_frame_error_witness :
  _bytes_to_len_object linux64_py2 (Bytes [x01; x02; x03])
  = (if struct_n linux64_py2 then Raise AttributeError
     else Ok (le_value (native linux64_py2 [x01; x02; x03]))) /\
  _bytes_to_len_object linux64_py2 (ByteArray [x01; x02; x03])
  = Raise AttributeError.
Proof.
  apply (wrong_width_is_no_frame_error linux64_py2 [x01; x02; x03]).
  vm_compute. discriminate.
Defined.

(** C7 as stated fails: three bytes, where the signed size type has
    eight, are decoded to an integer. *)
Lemma short_prefix_is_decoded :
  length [x01; x02; x03] <> ssize_bytes linux64_py2 /\
  _bytes_to_len linux64_py2 [x01; x02; x03] = Ok 197121 /\
  _bytes_to_len_object linux64_py2 (Bytes [x01; x02; x03]) = Ok 197121.
Proof. repeat split; vm_compute; congruence. Qed.

(** C8 (the code departs from it).  The payload of 29 bytes arrives as 10
    bytes and then 19, or as 10 bytes before the peer closes: in both
    cases the session's single [recv] takes the first 10 bytes for the
    whole payload and returns them without an error, so the query dies in
    the JSON decoder instead of yielding the empty sequence it yields
    when the same payload arrives in one piece. *)
Theorem short_read_is_taken_for_the_payload :
  let payload := ascii_bytes no_maps_payload in
  let whole := calm (answer linux64 [payload]) in
  let split := calm (answer linux64 [firstn 10 payload; skipn 10 payload]) in
  let cut := calm [Chunk (le_bytes 8 29); Chunk (firstn 10 payload)] in
  length payload = 29%nat /\
  fst (exchange linux64 whole (no_socket whole)) = Ok no_maps_payload /\
  fst (exchange linux64 split (no_socket split))
  = Ok (firstn 10 no_maps_payload) /\
  fst (exchange linux64 cut (no_socket cut))
  = Ok (firstn 10 no_maps_payload) /\
  raised (mpaths_get linux64 json_loads whole) = None /\
  raised (mpaths_get linux64 json_loads split) = Some ValueError /\
  raised (mpaths_get linux64 json_loads cut) = Some ValueError.
Proof. cbv zeta. repeat split; vm_compute; reflexivity. Qed.

(** C9 (the code departs from it).  When [connect] is refused, when a
    [recv] times out, or when the payload is not UTF-8, [mpaths_get] ends
    with the exception and its socket still open; the socket is closed
    where the session returns (here: an empty response, a version
    mismatch). *)
Theorem socket_left_open_on_error :
  let refused := {| socket_exn := None;
                    connect_exn := Some (SocketError "ECONNREFUSED");
                    sendall_exn := None; incoming := [] |} in
  let timed_out := calm [Fails (SocketError "timed out")] in
  let not_utf8 := calm (answer linux64 [[xff]]) in
  let mismatch := calm (answer linux64 [ascii_bytes version1_payload]) in
  (raised (mpaths_get linux64 json_loads refused)
   = Some (SocketError "ECONNREFUSED") /\
   is_open (sock (mpaths_get linux64 json_loads refused)) = true) /\
  (raised (mpaths_get linux64 json_loads timed_out)
   = Some (SocketError "timed out") /\
   is_open (sock (mpaths_get linux64 json_loads timed_out)) = true) /\
  (raised (mpaths_get linux64 json_loads not_utf8) = Some UnicodeDecodeError /\
   is_open (sock (mpaths_get linux64 json_loads not_utf8)) = true) /\
  (raised (mpaths_get linux64 json_loads (calm [])) = None /\
   is_open (sock (mpaths_get linux64 json_loads (calm []))) = false) /\
  (raised (mpaths_get linux64 json_loads mismatch)
   = Some (NameError "exception") /\
   is_open (sock (mpaths_get linux64 json_loads mismatch)) = false).
Proof. cbv zeta. repeat split; vm_compute; reflexivity. Qed.

(** C10.  The session takes NUL characters off the front of the text it
    received as well as off its end: when nothing fails and the payload is
    the bytes of an ASCII text between any numbers of NUL bytes, arrived
    whole behind its length, the session returns that text and
    [mpaths_get] goes on with it.  So when the payload is made of NUL
    bytes only, the text is empty and [mpaths_get] yields nothing and
    raises nothing, whatever the JSON decoder would do (it is not
    consulted). *)
Theorem nul_payload_is_no_maps
        (pf : platform) (loads : text -> result json) (w : world)
        (prefix : list byte) (j k : nat) (t : text) :
  untroubled w ->
  is_ascii t -> hd_error t <> Some 0 -> hd_error (rev t) <> Some 0 ->
  Z.of_nat (length (padded j k t)) < ssize_half pf ->
  Z.of_nat (length (padded j k t)) <= INT_MAX ->
  _len_to_ssize_t_bytes pf (Z.of_nat (length (padded j k t))) = Ok prefix ->
  delivers w prefix (padded j k t) ->
  fst (exchange pf w (no_socket w)) = Ok t /\
  yielded (mpaths_get pf loads w) = fst (generate loads t) /\
  raised (mpaths_get pf loads w) = snd (generate loads t) /\
  (t = [] ->
   yielded (mpaths_get pf loads w) = [] /\
   raised (mpaths_get pf loads w) = None).
Proof.
  intros Hw Ht Hh Hl Hlt _ Hp [rest Hd].
  assert (Hex : exists s, exchange pf w (no_socket w) = (Ok t, s)).
  { destruct (exchange_untroubled pf w Hw) as (p15 & _ & ->).
    pose proof (conj (Nat2Z.is_nonneg (length (padded j k t))) Hlt) as Hn.
    destruct (_len_to_ssize_t_bytes_length pf _ prefix Hn Hp) as [Hlen Hne].
    pose proof (_bytes_to_len_encoded pf _ prefix Hn Hp) as HL.
    match goal with |- context [receive pf ?s] =>
      rewrite (receive_delivered pf s prefix (padded j k t) rest
                 _ Hd Hlen Hne HL (proj1 Hn))
    end.
    rewrite Nat2Z.id, firstn_all, (utf8_decode_padded j k t Ht).
    cbn [bind]. rewrite (strip_nul_padding j k t Hh Hl).
    eexists. reflexivity. }
  destruct Hex as [s Hex]. unfold mpaths_get. rewrite Hex. cbn [fst].
  split; [reflexivity|].
  destruct (generate loads t) as [ms e] eqn:Hg. cbn [yielded raised fst snd].
  split; [reflexivity|]. split; [reflexivity|].
  intros ->. rewrite generate_empty in Hg. injection Hg as <- <-.
  split; reflexivity.
Qed.

Lemma nul_payload_is_no_maps_witness :
  fst (exchange linux64 (calm (answer linux64 [padded 1 2 []]))
                (no_socket (calm (answer linux64 [padded 1 2 []])))) = Ok [] /\
  yielded (mpaths_get linux64 (fun _ => Raise ValueError)
             (calm (answer linux64 [padded 1 2 []])))
  = fst (generate (fun _ => Raise ValueError) []) /\
  raised (mpaths_get linux64 (fun _ => Raise ValueError)
            (calm (answer linux64 [padded 1 2 []])))
  = snd (generate (fun _ => Raise ValueError) []) /\
  (([] : text) = [] ->
   yielded (mpaths_get linux64 (fun _ => Raise ValueError)
              (calm (answer linux64 [padded 1 2 []]))) = [] /\
   raised (mpaths_get linux64 (fun _ => Raise ValueError)
             (calm (answer linux64 [padded 1 2 []]))) = None).
Proof.
  apply (nul_payload_is_no_maps
           linux64 (fun _ => Raise ValueError)
           (calm (answer linux64 [padded 1 2 []]))
           (le_bytes 8 3) 1 2 []).
  - repeat split.
  - constructor.
  - discriminate.
  - discriminate.
  - vm_compute. reflexivity.
  - vm_compute. discriminate.
  - vm_compute. reflexivity.
  - exists []. right. vm_compute. reflexivity.
Defined.

(* ================================================================== *)
(** * Further properties of the code *)

(* ================================================================== *)
(** ** More on the framing: the bytes themselves *)

Lemma le_bytes_le_value (bs : list byte) :
  le_bytes (length bs) (le_value bs) = bs.
Proof.
  induction bs as [|b bs IH]; [reflexivity|].
  cbn [length le_value le_bytes]. pose proof (byte_val_range b) as Hb.
  assert (Hm : (byte_val b + 256 * le_value bs) mod 256 = byte_val b)
    by (symmetry; apply (Z.mod_unique_pos _ _ (le_value bs)); lia).
  assert (Hd : (byte_val b + 256 * le_value bs) / 256 = le_value bs)
    by (symmetry; apply (Z.div_unique_pos _ _ _ (byte_val b)); lia).
  rewrite Hd, IH. f_equal.
  unfold byte_of. rewrite Hm. unfold byte_val.
  now rewrite N2Z.id, Byte.of_to_N.
Qed.

Lemma unhexlify_length (s : list ascii) (bs : list byte) :
  unhexlify s = Ok bs -> length s = (2 * length bs)%nat.
Proof.
  revert bs; induction s as [| c | c1 c2 s IH] using list_pair_ind;
    intros bs H.
  - injection H as <-. reflexivity.
  - discriminate.
  - cbn [unhexlify] in H.
    destruct (hexval c1); [|discriminate].
    destruct (hexval c2); [|discriminate].
    destruct (unhexlify s) as [u|]; [|discriminate].
    cbn [bind] in H. injection H as <-.
    cbn [length]. rewrite (IH u eq_refl). lia.
Qed.

Lemma format_x_length (n w : Z) :
  0 <= n < 256 ^ w -> 1 <= w -> Z.of_nat (length (format_x n)) <= 2 * w.
Proof.
  intros Hn Hw. unfold format_x.
  destruct (n <? 0) eqn:E; [apply Z.ltb_lt in E; lia|].
  apply hex_digits_length; [|lia].
  split; [lia|]. change 16 with (2 ^ 4). rewrite <- Z.pow_mul_r by lia.
  rewrite pow256 in Hn by lia.
  now replace (4 * (2 * w)) with (8 * w) by lia.
Qed.

(** The [except] branch of the encoder on a length that fits the field,
    sign bit included: the [ssize_t]-wide big-endian bytes. *)
Lemma hex_fallback_exact pf (n : Z) :
  (0 < ssize_bytes pf)%nat -> 0 <= n < 256 ^ Z.of_nat (ssize_bytes pf) ->
  unhexlify (zfill (_IPC_LEN_SIZE pf * 2)
                   (repeat "0"%char (length (format_x n) mod 2)
                      ++ format_x n))
  = Ok (rev (le_bytes (ssize_bytes pf) n)).
Proof.
  intros Hw Hn.
  destruct (hex_fallback_encode pf n (proj1 Hn)) as (bs & Hbs & Hne & Hv).
  rewrite Hbs. f_equal.
  destruct (format_x_value n (proj1 Hn)) as [Hfv Hfne].
  pose proof (format_x_length n (Z.of_nat (ssize_bytes pf)) Hn ltac:(lia))
    as Hfl.
  set (h := format_x n) in *.
  set (s0 := repeat "0"%char (length h mod 2) ++ h) in *.
  assert (Hv0 : hex_value 0 s0 = Some n)
    by (subst s0; now rewrite hex_value_zeros).
  assert (Hne0 : s0 <> [])
    by (subst s0; destruct (repeat _ _); [assumption | discriminate]).
  assert (Hl0 : (length s0 <= 2 * ssize_bytes pf)%nat).
  { subst s0. rewrite length_app, repeat_length.
    pose proof (Nat.div_mod_eq (length h) 2).
    pose proof (Nat.mod_upper_bound (length h) 2 ltac:(lia)). lia. }
  pose proof (zfill_length (_IPC_LEN_SIZE pf * 2) s0 n Hv0 Hne0) as Hzl.
  pose proof (unhexlify_length _ _ Hbs) as Hlu.
  unfold _IPC_LEN_SIZE in Hzl, Hlu.
  assert (Hlen : length bs = ssize_bytes pf) by lia.
  rewrite <- Hv, <- Hlen, <- (length_rev bs), le_bytes_le_value.
  now rewrite rev_involutive.
Qed.

Lemma _len_to_ssize_t_bytes_hex pf (n : Z) :
  struct_pack_n pf n = Raise StructError ->
  (0 < ssize_bytes pf)%nat -> 0 <= n < 256 ^ Z.of_nat (ssize_bytes pf) ->
  _len_to_ssize_t_bytes pf n = Ok (native pf (le_bytes (ssize_bytes pf) n)).
Proof.
  intros Hs Hw Hn. unfold _len_to_ssize_t_bytes. rewrite Hs.
  cbn [except_struct_error]. rewrite hex_fallback_exact by assumption.
  cbn [bind]. unfold native.
  destruct (byteorder pf); [now rewrite rev_involutive | reflexivity].
Qed.

Lemma ssize_modulus_256 pf :
  ssize_modulus pf = 256 ^ Z.of_nat (ssize_bytes pf).
Proof. unfold ssize_modulus, _IPC_LEN_SIZE. now rewrite pow256 by lia. Qed.

Lemma ssize_modulus_half pf :
  (0 < ssize_bytes pf)%nat -> ssize_modulus pf = 2 * ssize_half pf.
Proof.
  intros Hw. unfold ssize_modulus, ssize_half, _IPC_LEN_SIZE.
  rewrite <- Z.pow_succ_r by lia. f_equal. lia.
Qed.

Lemma ssize_half_pos pf : 0 <= ssize_half pf.
Proof. unfold ssize_half. apply Z.pow_nonneg. lia. Qed.

Lemma struct_pack_n_in_range pf (n : Z) :
  struct_n pf = true -> - ssize_half pf <= n < ssize_half pf ->
  struct_pack_n pf n
  = Ok (native pf (le_bytes (ssize_bytes pf) (n mod ssize_modulus pf))).
Proof.
  intros Hs Hn. unfold struct_pack_n. rewrite Hs. cbn [negb].
  replace ((- ssize_half pf <=? n) && (n <? ssize_half pf)) with true;
    [reflexivity|].
  symmetry. apply andb_true_iff. split; [apply Z.leb_le | apply Z.ltb_lt]; lia.
Qed.

(** X1.  On a length that fits the signed size type, both branches of the
    encoder give the same bytes: exactly [ssize_t] wide, the value in the
    platform's byte order.  The hex fallback is the native encoding. *)
Theorem encoding_is_native (pf : platform) (n : Z) :
  0 <= n < ssize_half pf ->
  _len_to_ssize_t_bytes pf n = Ok (native pf (le_bytes (ssize_bytes pf) n)) /\
  length (native pf (le_bytes (ssize_bytes pf) n)) = ssize_bytes pf.
Proof.
  intros Hn. destruct (ssize_half_lt_modulus pf n Hn) as (Hw & Hlt & Hm).
  split; [|now rewrite native_length, le_bytes_length].
  destruct (struct_n pf) eqn:Hs.
  - unfold _len_to_ssize_t_bytes.
    rewrite struct_pack_n_in_range by (assumption || lia).
    cbn [except_struct_error]. now rewrite Z.mod_small by lia.
  - apply _len_to_ssize_t_bytes_hex; [|assumption|lia].
    now apply struct_pack_n_unknown.
Qed.

Lemma encoding_is_native_witness :
  _len_to_ssize_t_bytes linux64_py2 258
  = Ok (native linux64_py2 (le_bytes (ssize_bytes linux64_py2) 258)) /\
  length (native linux64_py2 (le_bytes (ssize_bytes linux64_py2) 258))
  = ssize_bytes linux64_py2.
Proof.
  apply (encoding_is_native linux64_py2 258).
  vm_compute. split; [discriminate | reflexivity].
Defined.

Lemma roundtrip_hex pf (n : Z) :
  struct_n pf = false -> 0 <= n ->
  exists bs, _len_to_ssize_t_bytes pf n = Ok bs /\
             bs <> [] /\
             le_value (native pf bs) = n /\
             _bytes_to_len pf bs = Ok n.
Proof.
  intros Hs Hn.
  destruct (hex_fallback_encode pf n Hn) as (bs & Hbs & Hne & Hv).
  unfold _len_to_ssize_t_bytes.
  rewrite struct_pack_n_unknown by assumption.
  cbn [except_struct_error]. rewrite Hbs. cbn [bind].
  assert (Hrev : rev bs <> []).
  { intros E. apply (f_equal (@length _)) in E. rewrite length_rev in E.
    destruct bs; [congruence | discriminate]. }
  eexists. split; [reflexivity|].
  rewrite _bytes_to_len_fallback by (now apply struct_unpack_n_unknown).
  unfold native. destruct (byteorder pf).
  - repeat split; [assumption | assumption |].
    destruct (rev bs); [congruence|]. now rewrite <- Hv.
  - repeat split; [assumption | assumption |].
    destruct bs; [congruence|]. now rewrite <- Hv.
Qed.

(** X2.  Where struct does not know ["n"], the encoder has no upper bound:
    every non-negative length is encoded, as a bytearray; its bytes, read
    as a [str], decode back to the length, while the bytearray itself is
    not decoded (AttributeError); and a length that needs more than the
    field's bytes gets a longer prefix. *)
Theorem unbounded_length_without_struct (pf : platform) (n : Z) :
  struct_n pf = false -> 0 <= n ->
  exists bs,
    _len_to_ssize_t_bytes_object pf n = Ok (ByteArray bs) /\
    _bytes_to_len_object pf (Bytes bs) = Ok n /\
    _bytes_to_len_object pf (ByteArray bs) = Raise AttributeError /\
    (n < ssize_modulus pf -> (0 < ssize_bytes pf)%nat ->
     length bs = ssize_bytes pf) /\
    (ssize_modulus pf <= n -> (ssize_bytes pf < length bs)%nat).
Proof.
  intros Hs Hn.
  destruct (roundtrip_hex pf n Hs Hn) as (bs & Hbs & Hne & Hv & Hd).
  exists bs.
  split; [now rewrite _len_to_ssize_t_bytes_object_hex, Hbs|].
  split; [now rewrite _bytes_to_len_object_str|].
  split; [now apply _bytes_to_len_object_bytearray, struct_unpack_n_unknown|].
  split.
  - intros Hlt Hw. rewrite ssize_modulus_256 in Hlt.
    rewrite _len_to_ssize_t_bytes_hex in Hbs
      by (first [now apply struct_pack_n_unknown | assumption | lia]).
    injection Hbs as <-. now rewrite native_length, le_bytes_length.
  - intros Hge. rewrite ssize_modulus_256 in Hge.
    pose proof (le_value_range (native pf bs)) as Hr.
    rewrite native_length, Hv in Hr.
    destruct (Nat.lt_ge_cases (ssize_bytes pf) (length bs)) as [|Hle];
      [assumption|].
    assert (256 ^ Z.of_nat (length bs) <= 256 ^ Z.of_nat (ssize_bytes pf))
      by (apply Z.pow_le_mono_r; lia).
    lia.
Qed.

Lemma unbounded_length_without_struct_witness :
  exists bs,
    _len_to_ssize_t_bytes_object linux64_py2 (2 ^ 64 + 5)
    = Ok (ByteArray bs) /\
    _bytes_to_len_object linux64_py2 (Bytes bs) = Ok (2 ^ 64 + 5) /\
    _bytes_to_len_object linux64_py2 (ByteArray bs) = Raise AttributeError /\
    (2 ^ 64 + 5 < ssize_modulus linux64_py2 ->
     (0 < ssize_bytes linux64_py2)%nat ->
     length bs = ssize_bytes linux64_py2) /\
    (ssize_modulus linux64_py2 <= 2 ^ 64 + 5 ->
     (ssize_bytes linux64_py2 < length bs)%nat).
Proof.
  apply (unbounded_length_without_struct linux64_py2 (2 ^ 64 + 5)).
  - reflexivity.
  - vm_compute. discriminate.
Defined.

(* ------------------------------------------------------------------ *)

Lemma hexval_minus : hexval "-"%char = None.
Proof. reflexivity. Qed.

Lemma unhexlify_minus (s : list ascii) :
  In "-"%char s -> unhexlify s = Raise TypeError.
Proof.
  induction s as [| c | c1 c2 s IH] using list_pair_ind; intros H.
  - destruct H.
  - reflexivity.
  - cbn [unhexlify].
    destruct H as [-> | [-> | H]].
    + reflexivity.
    + rewrite hexval_minus. now destruct (hexval c1).
    + destruct (hexval c1); [|reflexivity].
      destruct (hexval c2); [|reflexivity].
      now rewrite (IH H).
Qed.

Lemma zfill_In (width : Z) (s : list ascii) (c : ascii) :
  In c s -> In c (zfill width s).
Proof.
  unfold zfill. destruct s as [|a s]; [intros []|]. intros H.
  destruct (_ || _).
  - destruct H as [-> | H]; [now left | right].
    apply in_or_app. now right.
  - apply in_or_app. now right.
Qed.

(** X3.  Where struct does not know ["n"], a negative length is not
    encoded: the minus sign of ["%x"] is no hexadecimal digit and
    [decode("hex")] raises TypeError. *)
Theorem negative_length_without_struct (pf : platform) (n : Z) :
  struct_n pf = false -> n < 0 ->
  _len_to_ssize_t_bytes pf n = Raise TypeError.
Proof.
  intros Hs Hn. unfold _len_to_ssize_t_bytes.
  rewrite struct_pack_n_unknown by assumption. cbn [except_struct_error].
  rewrite unhexlify_minus; [reflexivity|].
  apply zfill_In, in_or_app. right.
  unfold format_x. replace (n <? 0) with true by (symmetry; now apply Z.ltb_lt).
  now left.
Qed.

Lemma negative_length_without_struct_witness :
  _len_to_ssize_t_bytes linux64_py2 (-1) = Raise TypeError.
Proof.
  apply (negative_length_without_struct linux64_py2 (-1)); reflexivity.
Defined.

(* ------------------------------------------------------------------ *)

(** X4.  With struct's ["n"], the round trip covers the whole of
    [ssize_t], the negative half in two's complement. *)
Theorem signed_roundtrip_with_struct (pf : platform) (n : Z) :
  struct_n pf = true -> - ssize_half pf <= n < ssize_half pf ->
  _len_to_ssize_t_bytes pf n
  = Ok (native pf (le_bytes (ssize_bytes pf) (n mod ssize_modulus pf))) /\
  (bs <- _len_to_ssize_t_bytes pf n ;; _bytes_to_len pf bs) = Ok n.
Proof.
  intros Hs Hn.
  assert (Hw : (0 < ssize_bytes pf)%nat).
  { destruct (ssize_bytes pf) eqn:E; [|lia].
    unfold ssize_half, _IPC_LEN_SIZE in Hn. rewrite E in Hn.
    simpl in Hn. lia. }
  pose proof (ssize_modulus_half pf Hw) as Hm.
  pose proof (ssize_half_pos pf) as Hp.
  unfold _len_to_ssize_t_bytes, _bytes_to_len.
  rewrite struct_pack_n_in_range by assumption.
  cbn [except_struct_error bind]. split; [reflexivity|].
  unfold struct_unpack_n. rewrite Hs. cbn [negb].
  rewrite native_length, le_bytes_length, Nat.eqb_refl.
  rewrite native_involutive, le_value_le_bytes, <- ssize_modulus_256.
  rewrite Z.mod_mod by lia.
  cbn [except_struct_error]. f_equal.
  destruct (Z_lt_ge_dec n 0) as [Hneg | Hpos].
  - replace (n mod ssize_modulus pf) with (n + ssize_modulus pf)
      by (apply (Z.mod_unique_pos _ _ (-1)); lia).
    replace (n + ssize_modulus pf <? ssize_half pf) with false
      by (symmetry; apply Z.ltb_ge; lia).
    lia.
  - rewrite Z.mod_small by lia.
    now replace (n <? ssize_half pf) with true
      by (symmetry; apply Z.ltb_lt; lia).
Qed.

Lemma signed_roundtrip_with_struct_witness :
  _len_to_ssize_t_bytes linux64 (-2)
  = Ok (native linux64
               (le_bytes (ssize_bytes linux64) (-2 mod ssize_modulus linux64)))
  /\ (bs <- _len_to_ssize_t_bytes linux64 (-2) ;; _bytes_to_len linux64 bs)
     = Ok (-2).
Proof.
  apply (signed_roundtrip_with_struct linux64 (-2)).
  - reflexivity.
  - vm_compute. split; [discriminate | reflexivity].
Defined.

(* ------------------------------------------------------------------ *)

(** X5.  What the decoder can return.  It never decodes the empty
    sequence; struct's reading of a field-wide sequence lies in the range
    of [ssize_t]; the [except] branch's reading is the unsigned value of
    the bytes in native order, below 256 to the number of bytes. *)
Theorem decoded_length_bounds (pf : platform) (bs : list byte) (v : Z) :
  (0 < ssize_bytes pf)%nat ->
  _bytes_to_len pf bs = Ok v ->
  bs <> [] /\
  (struct_n pf = true -> length bs = ssize_bytes pf ->
   - ssize_half pf <= v < ssize_half pf) /\
  (struct_n pf = false \/ length bs <> ssize_bytes pf ->
   v = le_value (native pf bs) /\ 0 <= v < 256 ^ Z.of_nat (length bs)).
Proof.
  intros Hw H.
  pose proof (le_value_range (native pf bs)) as Hr.
  rewrite native_length in Hr.
  destruct (struct_unpack_n pf bs) as [u|e] eqn:E.
  - (* struct decodes: the input is as wide as the field *)
    unfold struct_unpack_n in E.
    destruct (struct_n pf) eqn:Hs; [|discriminate]. cbn [negb] in E.
    destruct (length bs =? ssize_bytes pf)%nat eqn:El; [|discriminate].
    apply Nat.eqb_eq in El. injection E as <-.
    unfold _bytes_to_len, struct_unpack_n in H.
    rewrite Hs in H. cbn [negb] in H. rewrite <- El, Nat.eqb_refl in H.
    cbn [except_struct_error] in H. injection H as <-.
    split; [intros ->; cbn in El; lia|].
    split; [|intros [? | ?]; congruence].
    intros _ _. rewrite El, <- ssize_modulus_256 in Hr.
    pose proof (ssize_modulus_half pf Hw). pose proof (ssize_half_pos pf).
    destruct (le_value (native pf bs) <? ssize_half pf) eqn:Eh;
      [apply Z.ltb_lt in Eh | apply Z.ltb_ge in Eh]; lia.
  - assert (e = StructError) as ->.
    { unfold struct_unpack_n in E. destruct (negb _); [congruence|].
      destruct (_ =? _)%nat; congruence. }
    rewrite _bytes_to_len_fallback in H by assumption.
    destruct bs as [|b bs]; [discriminate|]. injection H as <-.
    split; [discriminate|]. split; [|intros _; split; [reflexivity | exact Hr]].
    intros Hs Hl. unfold struct_unpack_n in E. rewrite Hs in E.
    cbn [negb] in E. apply Nat.eqb_eq in Hl. now rewrite Hl in E.
Qed.

Lemma decoded_length_bounds_witness :
  [xff; xff; xff; xff; xff; xff; xff; x7f] <> [] /\
  (struct_n linux64 = true ->
   length [xff; xff; xff; xff; xff; xff; xff; x7f] = ssize_bytes linux64 ->
   - ssize_half linux64 <= 2 ^ 63 - 1 < ssize_half linux64) /\
  (struct_n linux64 = false \/
   length [xff; xff; xff; xff; xff; xff; xff; x7f] <> ssize_bytes linux64 ->
   2 ^ 63 - 1
   = le_value (native linux64 [xff; xff; xff; xff; xff; xff; xff; x7f]) /\
   0 <= 2 ^ 63 - 1
     < 256 ^ Z.of_nat (length [xff; xff; xff; xff; xff; xff; xff; x7f])).
Proof.
  apply (decoded_length_bounds
           linux64 [xff; xff; xff; xff; xff; xff; xff; x7f] (2 ^ 63 - 1)).
  - vm_compute. lia.
  - reflexivity.
Defined.

(** X6.  Every prefix as wide as the field is the encoding of the length
    it decodes to. *)
Theorem decoded_length_reencodes (pf : platform) (bs : list byte) :
  (0 < ssize_bytes pf)%nat -> length bs = ssize_bytes pf ->
  (v <- _bytes_to_len pf bs ;; _len_to_ssize_t_bytes pf v) = Ok bs.
Proof.
  intros Hw Hl.
  pose proof (le_value_range (native pf bs)) as Hr.
  rewrite native_length, Hl in Hr.
  pose proof (le_bytes_le_value (native pf bs)) as Hle.
  rewrite native_length, Hl in Hle.
  destruct (struct_n pf) eqn:Hs.
  - pose proof (ssize_modulus_half pf Hw) as Hm.
    pose proof (ssize_half_pos pf) as Hp.
    rewrite <- ssize_modulus_256 in Hr.
    unfold _bytes_to_len, struct_unpack_n. rewrite Hs. cbn [negb].
    apply Nat.eqb_eq in Hl. rewrite Hl. cbn [except_struct_error bind].
    set (u := le_value (native pf bs)) in *.
    unfold _len_to_ssize_t_bytes.
    destruct (u <? ssize_half pf) eqn:Eh;
      [apply Z.ltb_lt in Eh | apply Z.ltb_ge in Eh];
      rewrite struct_pack_n_in_range by (assumption || lia);
      cbn [except_struct_error].
    + rewrite Z.mod_small by lia. now rewrite Hle, native_involutive.
    + replace ((u - ssize_modulus pf) mod ssize_modulus pf) with u
        by (apply (Z.mod_unique_pos _ _ (-1)); lia).
      now rewrite Hle, native_involutive.
  - rewrite _bytes_to_len_fallback by (now apply struct_unpack_n_unknown).
    destruct bs as [|b bs]; [cbn in Hl; lia|]. cbn [bind].
    rewrite _len_to_ssize_t_bytes_hex
      by (first [now apply struct_pack_n_unknown | assumption]).
    now rewrite Hle, native_involutive.
Qed.

Lemma decoded_length_reencodes_witness :
  (v <- _bytes_to_len linux64 [x01; x02; x03; x04; x05; x06; x07; xf8] ;;
   _len_to_ssize_t_bytes linux64 v)
  = Ok [x01; x02; x03; x04; x05; x06; x07; xf8].
Proof.
  apply (decoded_length_reencodes
           linux64 [x01; x02; x03; x04; x05; x06; x07; xf8]).
  - vm_compute. lia.
  - reflexivity.
Defined.

(* ================================================================== *)
(** ** The status tables *)

Lemma text_eqb_refl (t : text) : text_eqb t t = true.
Proof. now apply text_eqb_eq. Qed.

Lemma text_eqb_neq (a b : text) : a <> b -> text_eqb a b = false.
Proof.
  intros H. destruct (text_eqb a b) eqn:E; [|reflexivity].
  apply text_eqb_eq in E. contradiction.
Qed.

Lemma dict_set_fresh (d : dict) (key v : json) :
  (forall k, In k (map fst d) -> py_eq k key = false) ->
  dict_set d key v = d ++ [(key, v)].
Proof.
  induction d as [|[k x] d IH]; intros H; cbn [dict_set app]; [reflexivity|].
  rewrite (H k) by (now left). f_equal. apply IH.
  intros k' Hk'. apply H. now right.
Qed.

Lemma reverse_mapping_steps (l done rest : list (Z * text)) :
  l = done ++ rest -> NoDup (map snd l) ->
  fold_left (fun d kv => dict_set d (snd kv) (fst kv)) (status_table rest)
            (status_table l ++ reversed_table done)
  = status_table l ++ reversed_table l.
Proof.
  revert done; induction rest as [|[k v] rest IH]; intros done Hl Hnd.
  - rewrite app_nil_r in Hl. now subst.
  - cbn [status_table map fold_left fst snd].
    rewrite dict_set_fresh.
    + rewrite <- app_assoc.
      replace (reversed_table done ++ [(JStr v, JInt k)])
        with (reversed_table (done ++ [(k, v)]))
        by (unfold reversed_table; now rewrite map_app).
      apply IH; [|assumption]. now rewrite <- app_assoc.
    + intros key Hkey. rewrite map_app, in_app_iff in Hkey.
      destruct Hkey as [Hkey | Hkey].
      * unfold status_table in Hkey. rewrite map_map in Hkey.
        apply in_map_iff in Hkey. destruct Hkey as (kv & <- & _).
        reflexivity.
      * unfold reversed_table in Hkey. rewrite map_map in Hkey.
        apply in_map_iff in Hkey. destruct Hkey as ([k' v'] & <- & Hin).
        cbn [fst snd py_eq]. apply text_eqb_neq. intros ->.
        subst l. rewrite map_app in Hnd. cbn [map snd] in Hnd.
        apply NoDup_remove_2 in Hnd. apply Hnd.
        apply in_or_app. left. apply in_map_iff. now exists (k', v).
Qed.

Lemma _add_reverse_mapping_table (l : list (Z * text)) :
  NoDup (map snd l) ->
  _add_reverse_mapping (status_table l) = status_table l ++ reversed_table l.
Proof.
  intros H. unfold _add_reverse_mapping.
  rewrite <- (app_nil_r (status_table l)) at 2.
  now apply (reverse_mapping_steps l [] l).
Qed.

Lemma dict_find_app (d1 d2 : dict) (key : json) :
  dict_find (d1 ++ d2) key
  = match dict_find d1 key with
    | Some v => Some v
    | None => dict_find d2 key
    end.
Proof.
  induction d1 as [|[k v] d1 IH]; cbn [app dict_find]; [reflexivity|].
  now destruct (py_eq k key).
Qed.

Lemma dict_find_status_code (l : list (Z * text)) (k : Z) (v : text) :
  NoDup (map fst l) -> In (k, v) l ->
  dict_find (status_table l) (JInt k) = Some (JStr v).
Proof.
  induction l as [|[k' v'] l IH]; intros Hnd Hin; [destruct Hin|].
  cbn [status_table map dict_find fst snd py_eq].
  cbn [map fst] in Hnd. inversion Hnd as [|? ? Hni Hnd']; subst.
  destruct Hin as [[= -> ->] | Hin].
  - now rewrite Z.eqb_refl.
  - destruct (Z.eqb_spec k' k) as [-> | _].
    + exfalso. apply Hni. apply in_map_iff. now exists (k, v).
    + now apply IH.
Qed.

Lemma dict_find_status_name (l : list (Z * text)) (s : text) :
  dict_find (status_table l) (JStr s) = None.
Proof. induction l as [|[k v] l IH]; [reflexivity | exact IH]. Qed.

Lemma dict_find_reversed_name (l : list (Z * text)) (k : Z) (v : text) :
  NoDup (map snd l) -> In (k, v) l ->
  dict_find (reversed_table l) (JStr v) = Some (JInt k).
Proof.
  induction l as [|[k' v'] l IH]; intros Hnd Hin; [destruct Hin|].
  cbn [reversed_table map dict_find fst snd py_eq].
  cbn [map snd] in Hnd. inversion Hnd as [|? ? Hni Hnd']; subst.
  destruct Hin as [[= -> ->] | Hin].
  - now rewrite text_eqb_refl.
  - rewrite text_eqb_neq; [now apply IH|].
    intros ->. apply Hni. apply in_map_iff. now exists (k, v).
Qed.

(** X7.  [_add_reverse_mapping] makes a table of distinct codes and
    distinct names work both ways. *)
Theorem reverse_mapping_both_ways (l : list (Z * text)) (k : Z) (v : text) :
  NoDup (map fst l) -> NoDup (map snd l) -> In (k, v) l ->
  dict_find (_add_reverse_mapping (status_table l)) (JInt k) = Some (JStr v) /\
  dict_find (_add_reverse_mapping (status_table l)) (JStr v) = Some (JInt k) /\
  length (_add_reverse_mapping (status_table l)) = (2 * length l)%nat.
Proof.
  intros Hk Hv Hin. rewrite _add_reverse_mapping_table by assumption.
  rewrite !dict_find_app.
  rewrite (dict_find_status_code l k v Hk Hin), dict_find_status_name.
  rewrite (dict_find_reversed_name l k v Hv Hin).
  repeat split. unfold status_table, reversed_table.
  rewrite length_app, !length_map. lia.
Qed.

Lemma reverse_mapping_both_ways_witness :
  dict_find (_add_reverse_mapping
               (status_table [(0, text_of "undef"); (1, text_of "enabled");
                              (2, text_of "disabled"); (3, text_of "active")]))
            (JInt 3) = Some (JStr (text_of "active")) /\
  dict_find (_add_reverse_mapping
               (status_table [(0, text_of "undef"); (1, text_of "enabled");
                              (2, text_of "disabled"); (3, text_of "active")]))
            (JStr (text_of "active")) = Some (JInt 3) /\
  length (_add_reverse_mapping
            (status_table [(0, text_of "undef"); (1, text_of "enabled");
                           (2, text_of "disabled"); (3, text_of "active")]))
  = (2 * length [(0, text_of "undef"); (1, text_of "enabled");
                 (2, text_of "disabled"); (3, text_of "active")])%nat.
Proof.
  apply (reverse_mapping_both_ways
           [(0, text_of "undef"); (1, text_of "enabled");
            (2, text_of "disabled"); (3, text_of "active")]
           3 (text_of "active")).
  - repeat (constructor; [cbn; intuition discriminate|]). constructor.
  - repeat (constructor; [vm_compute; intuition discriminate|]). constructor.
  - cbn. tauto.
Defined.

Lemma dict_find_entry (d : dict) (key v : json) :
  dict_find d key = Some v ->
  exists k, In (k, v) d /\ py_eq k key = true.
Proof.
  induction d as [|[k x] d IH]; cbn [dict_find]; [discriminate|].
  destruct (py_eq k key) eqn:E.
  - intros [= ->]. exists k. split; [now left | assumption].
  - intros H. destruct (IH H) as (k' & Hin & Hk'). exists k'.
    split; [now right | assumption].
Qed.

Lemma dict_find_value (d : dict) (key v : json) :
  dict_find d key = Some v -> In v (map snd d).
Proof.
  intros H. destruct (dict_find_entry d key v H) as (k & Hin & _).
  apply in_map_iff. now exists (k, v).
Qed.

Lemma path_table_is_reversed :
  Path._STATUS_CONV
  = _add_reverse_mapping
      (status_table [(0, text_of "undef"); (3, text_of "ready");
                     (2, text_of "faulty"); (4, text_of "shaky");
                     (5, text_of "ghost"); (6, text_of "i/o pending");
                     (7, text_of "i/o timeout"); (9, text_of "delayed")]) /\
  PathGroup._STATUS_CONV
  = _add_reverse_mapping
      (status_table [(0, text_of "undef"); (1, text_of "enabled");
                     (2, text_of "disabled"); (3, text_of "active")]).
Proof. split; reflexivity. Qed.

(** Every value of the two tables is one of their keys. *)
Lemma path_table_closed (v : json) :
  In v (map snd Path._STATUS_CONV) ->
  exists s, dict_getitem Path._STATUS_CONV v = Ok s.
Proof.
  intros H. vm_compute in H.
  repeat (destruct H as [<- | H]; [eexists; reflexivity|]). destruct H.
Qed.

Lemma group_table_closed (v : json) :
  In v (map snd PathGroup._STATUS_CONV) ->
  exists s, dict_getitem PathGroup._STATUS_CONV v = Ok s.
Proof.
  intros H. vm_compute in H.
  repeat (destruct H as [<- | H]; [eexists; reflexivity|]). destruct H.
Qed.

Lemma dict_get_closed (d : dict) (key v : json) :
  (forall x, In x (map snd d) -> exists s, dict_getitem d x = Ok s) ->
  (exists s, dict_getitem d (JInt 0) = Ok s) ->
  dict_get d key (JInt 0) = Ok v ->
  exists s, dict_getitem d v = Ok s.
Proof.
  intros Hc H0. unfold dict_get. destruct (hashable key); [|discriminate].
  destruct (dict_find d key) as [x|] eqn:E; intros [= <-].
  - apply Hc. eapply dict_find_value; eassumption.
  - assumption.
Qed.

Lemma path_status_string_total (path : json) (p : Path.t) :
  Path.__init__ path = Ok p -> exists s, Path.status_string p = Ok s.
Proof.
  unfold Path.__init__, Path._status_str_to_enum, Path.status_string.
  destruct (getitem path (text_of "dev")) as [dev|]; [|discriminate].
  destruct (getitem path (text_of "chk_st")) as [st|]; [|discriminate].
  cbn [bind].
  destruct (dict_get Path._STATUS_CONV st (JInt Path.STATUS_UNKNOWN))
    as [v|] eqn:E; [|discriminate].
  cbn [bind]. intros [= <-]. cbn [Path._status].
  eapply dict_get_closed; [apply path_table_closed | | exact E].
  eexists; reflexivity.
Qed.

Lemma comprehension_Forall {A} (f : json -> result A) (P : A -> Prop) :
  (forall x y, f x = Ok y -> P y) ->
  forall l ys, comprehension f l = Ok ys -> Forall P ys.
Proof.
  intros Hf. induction l as [|x l IH]; cbn [comprehension]; intros ys H.
  - injection H as <-. constructor.
  - destruct (f x) as [y|] eqn:E; [|discriminate]. cbn [bind] in H.
    destruct (comprehension f l) as [ys'|]; [|discriminate].
    cbn [bind] in H. injection H as <-. constructor; eauto.
Qed.

Lemma group_status_string_total (pg : json) (g : PathGroup.t) :
  PathGroup.__init__ pg = Ok g ->
  (exists s, PathGroup.status_string g = Ok s) /\
  Forall (fun p => exists s, Path.status_string p = Ok s) (PathGroup.paths g).
Proof.
  unfold PathGroup.__init__, PathGroup._status_str_to_enum,
    PathGroup.status_string.
  destruct (getitem pg (text_of "paths")) as [raw|]; [|discriminate].
  cbn [bind]. destruct (py_iter raw) as [l|]; [|discriminate]. cbn [bind].
  destruct (comprehension Path.__init__ l) as [ps|] eqn:Ec; [|discriminate].
  cbn [bind].
  destruct (getitem pg (text_of "group")); [|discriminate].
  destruct (getitem pg (text_of "pri")); [|discriminate].
  destruct (getitem pg (text_of "selector")); [|discriminate].
  destruct (getitem pg (text_of "dm_st")) as [st|]; [|discriminate].
  cbn [bind].
  destruct (dict_get PathGroup._STATUS_CONV st (JInt PathGroup.STATUS_UNKNOWN))
    as [v|] eqn:E; [|discriminate].
  cbn [bind]. intros [= <-].
  cbn [PathGroup._status PathGroup.paths PathGroup._paths]. split.
  - eapply dict_get_closed; [apply group_table_closed | | exact E].
    eexists; reflexivity.
  - eapply comprehension_Forall; [|exact Ec]. apply path_status_string_total.
Qed.

Lemma mpath_status_string_total (mpath : json) (m : MPath.t) :
  MPath.__init__ mpath = Ok m ->
  Forall (fun g =>
            (exists s, PathGroup.status_string g = Ok s) /\
            Forall (fun p => exists s, Path.status_string p = Ok s)
                   (PathGroup.paths g))
         (MPath.path_groups m).
Proof.
  unfold MPath.__init__.
  destruct (getitem mpath (text_of "path_groups")) as [raw|]; [|discriminate].
  cbn [bind]. destruct (py_iter raw) as [l|]; [|discriminate]. cbn [bind].
  destruct (comprehension PathGroup.__init__ l) as [gs|] eqn:Ec;
    [|discriminate].
  cbn [bind].
  destruct (getitem mpath (text_of "uuid")); [|discriminate].
  destruct (getitem mpath (text_of "name")); [|discriminate].
  destruct (getitem mpath (text_of "sysfs")); [|discriminate].
  cbn [bind]. intros [= <-]. cbn [MPath.path_groups MPath._path_groups].
  eapply comprehension_Forall; [|exact Ec]. apply group_status_string_total.
Qed.

Lemma yield_each_Forall (P : MPath.t -> Prop) :
  (forall x m, MPath.__init__ x = Ok m -> P m) ->
  forall l, Forall P (fst (yield_each l)).
Proof.
  intros H. induction l as [|x l IH]; cbn [yield_each]; [constructor|].
  destruct (MPath.__init__ x) as [m|] eqn:E; [|constructor].
  destruct (yield_each l) as [ms e]. cbn [fst] in *. constructor; eauto.
Qed.

Lemma generate_Forall (P : MPath.t -> Prop) loads t :
  (forall x m, MPath.__init__ x = Ok m -> P m) ->
  Forall P (fst (generate loads t)).
Proof.
  intros H. unfold generate.
  destruct (length t =? 0)%nat; [constructor|].
  destruct (loads t) as [tree|]; [|constructor].
  destruct (getitem tree (text_of "major_version")) as [v|]; [|constructor].
  destruct (negb _); [constructor|].
  destruct (bind _ _) as [maps|]; [|constructor].
  now apply yield_each_Forall.
Qed.

Lemma mpaths_get_Forall (P : MPath.t -> Prop) pf loads w :
  (forall x m, MPath.__init__ x = Ok m -> P m) ->
  Forall P (yielded (mpaths_get pf loads w)).
Proof.
  intros H. unfold mpaths_get.
  destruct (exchange pf w (no_socket w)) as [[t|e] s]; [|constructor].
  pose proof (generate_Forall P loads t H) as HF.
  destruct (generate loads t) as [ms e]. exact HF.
Qed.

(** X8.  Whatever [mpaths_get] yields, every status in it has its string:
    [status_string] raises on no path group and on no path of a yielded
    map. *)
Theorem yielded_statuses_have_strings
        (pf : platform) (loads : text -> result json) (w : world) :
  Forall (fun m =>
            Forall (fun g =>
                      (exists s, PathGroup.status_string g = Ok s) /\
                      Forall (fun p => exists s, Path.status_string p = Ok s)
                             (PathGroup.paths g))
                   (MPath.path_groups m))
         (yielded (mpaths_get pf loads w)).
Proof. apply mpaths_get_Forall. apply mpath_status_string_total. Qed.

(* ------------------------------------------------------------------ *)

(** X9.  Both tables convert a declared code to its name and the name back
    to the code. *)
Theorem status_code_roundtrip (c : Z) :
  (In (JInt c) (map fst Path._STATUS_CONV) ->
   forall p : Path.t, Path.status p = JInt c ->
   exists name,
     Path.status_string p = Ok (JStr name) /\
     Path._status_str_to_enum (JStr name) = Ok (JInt c)) /\
  (In (JInt c) (map fst PathGroup._STATUS_CONV) ->
   forall g : PathGroup.t, PathGroup.status g = JInt c ->
   exists name,
     PathGroup.status_string g = Ok (JStr name) /\
     PathGroup._status_str_to_enum (JStr name) = Ok (JInt c)).
Proof.
  split; intros H x Hx.
  - unfold Path.status_string. unfold Path.status in Hx. rewrite Hx.
    vm_compute in H.
    repeat (destruct H as [H | H];
            [first [discriminate H
                   | injection H as <-; eexists; split; reflexivity]|]).
    destruct H.
  - unfold PathGroup.status_string. unfold PathGroup.status in Hx. rewrite Hx.
    vm_compute in H.
    repeat (destruct H as [H | H];
            [first [discriminate H
                   | injection H as <-; eexists; split; reflexivity]|]).
    destruct H.
Qed.

Lemma status_code_roundtrip_witness :
  (exists name,
      Path.status_string sdb = Ok (JStr name) /\
      Path._status_str_to_enum (JStr name) = Ok (JInt 5)) /\
  (exists name,
      PathGroup.status_string
        {| PathGroup._paths := []; PathGroup._group := JInt 1;
           PathGroup._pri := JInt 10; PathGroup._selector := JNull;
           PathGroup._status := JInt 2 |} = Ok (JStr name) /\
      PathGroup._status_str_to_enum (JStr name) = Ok (JInt 2)).
Proof.
  split.
  - apply (proj1 (status_code_roundtrip 5)); [|reflexivity].
    vm_compute. tauto.
  - apply (proj2 (status_code_roundtrip 2)); [|reflexivity].
    vm_compute. tauto.
Defined.

(* ------------------------------------------------------------------ *)

Lemma path_status_of_string (s : text) :
  exists c, Path._status_str_to_enum (JStr s) = Ok (JInt c) /\
            In (JInt c) (map fst Path._STATUS_CONV).
Proof.
  unfold Path._status_str_to_enum, dict_get. cbn [hashable].
  destruct (dict_find Path._STATUS_CONV (JStr s)) as [v|] eqn:E.
  - destruct (dict_find_entry _ _ _ E) as (k & Hin & Hk).
    apply py_eq_str in Hk. subst k. vm_compute in Hin.
    repeat (destruct Hin as [Hin | Hin];
            [first [discriminate Hin
                   | injection Hin as _ <-; eexists; split;
                     [reflexivity | vm_compute; tauto]]|]).
    destruct Hin.
  - exists 0. split; [reflexivity | vm_compute; tauto].
Qed.

Lemma group_status_of_string (s : text) :
  exists c, PathGroup._status_str_to_enum (JStr s) = Ok (JInt c) /\
            In (JInt c) (map fst PathGroup._STATUS_CONV).
Proof.
  unfold PathGroup._status_str_to_enum, dict_get. cbn [hashable].
  destruct (dict_find PathGroup._STATUS_CONV (JStr s)) as [v|] eqn:E.
  - destruct (dict_find_entry _ _ _ E) as (k & Hin & Hk).
    apply py_eq_str in Hk. subst k. vm_compute in Hin.
    repeat (destruct Hin as [Hin | Hin];
            [first [discriminate Hin
                   | injection Hin as _ <-; eexists; split;
                     [reflexivity | vm_compute; tauto]]|]).
    destruct Hin.
  - exists 0. split; [reflexivity | vm_compute; tauto].
Qed.

(** X10.  A path record with a "dev" and a string "chk_st" always makes a
    Path, whatever the string and whatever else the record holds; its
    status is a code of the table.  The same holds of the status a
    PathGroup takes from a string "dm_st". *)
Theorem path_of_record (kvs : list (text * json)) (dev : json) (s : text) :
  member (text_of "dev") kvs = Some dev ->
  member (text_of "chk_st") kvs = Some (JStr s) ->
  (exists c,
      Path.__init__ (JObj kvs)
      = Ok {| Path._dev := dev; Path._status := JInt c |} /\
      In (JInt c) (map fst Path._STATUS_CONV)) /\
  (exists c,
      PathGroup._status_str_to_enum (JStr s) = Ok (JInt c) /\
      In (JInt c) (map fst PathGroup._STATUS_CONV)).
Proof.
  intros Hd Hs. split; [|apply group_status_of_string].
  destruct (path_status_of_string s) as (c & Hc & Hin).
  exists c. split; [|assumption].
  unfold Path.__init__, getitem. rewrite Hd, Hs. cbn [bind].
  now rewrite Hc.
Qed.

Lemma path_of_record_witness :
  (exists c,
      Path.__init__
        (JObj [(text_of "chk_st", JStr (text_of "brand new"));
               (text_of "dev", JStr (text_of "sdc"));
               (text_of "extra", JNull)])
      = Ok {| Path._dev := JStr (text_of "sdc"); Path._status := JInt c |} /\
      In (JInt c) (map fst Path._STATUS_CONV)) /\
  (exists c,
      PathGroup._status_str_to_enum (JStr (text_of "brand new"))
      = Ok (JInt c) /\
      In (JInt c) (map fst PathGroup._STATUS_CONV)).
Proof.
  apply (path_of_record
           [(text_of "chk_st", JStr (text_of "brand new"));
            (text_of "dev", JStr (text_of "sdc"));
            (text_of "extra", JNull)]
           (JStr (text_of "sdc")) (text_of "brand new")); reflexivity.
Defined.

(** X11.  The table is two-way, so a "chk_st" that is a declared code
    instead of a name is taken for a key as well: the Path's status is
    then the name, a string, and its [status_string] the code.  A
    "chk_st" that is a list or an object cannot be a key: TypeError. *)
Theorem path_of_nonstring_status
        (kvs : list (text * json)) (dev st : json) :
  member (text_of "dev") kvs = Some dev ->
  member (text_of "chk_st") kvs = Some st ->
  (forall c, st = JInt c -> In (JInt c) (map fst Path._STATUS_CONV) ->
             exists name p,
               Path.__init__ (JObj kvs) = Ok p /\
               Path.blk_name p = dev /\
               Path.status p = JStr name /\
               Path.status_string p = Ok (JInt c)) /\
  (hashable st = false -> Path.__init__ (JObj kvs) = Raise TypeError).
Proof.
  intros Hd Hs. unfold Path.__init__, getitem. rewrite Hd, Hs. cbn [bind].
  split.
  - intros c -> Hin. vm_compute in Hin.
    repeat (destruct Hin as [Hin | Hin];
            [first [discriminate Hin
                   | injection Hin as <-; do 2 eexists;
                     repeat split; reflexivity]|]).
    destruct Hin.
  - intros Hh. unfold Path._status_str_to_enum, dict_get. now rewrite Hh.
Qed.

Lemma path_of_nonstring_status_witness :
  (forall c, JInt 3 = JInt c -> In (JInt c) (map fst Path._STATUS_CONV) ->
             exists name p,
               Path.__init__ (JObj [(text_of "dev", JStr (text_of "sda"));
                                    (text_of "chk_st", JInt 3)]) = Ok p /\
               Path.blk_name p = JStr (text_of "sda") /\
               Path.status p = JStr name /\
               Path.status_string p = Ok (JInt c)) /\
  (hashable (JInt 3) = false ->
   Path.__init__ (JObj [(text_of "dev", JStr (text_of "sda"));
                        (text_of "chk_st", JInt 3)]) = Raise TypeError).
Proof.
  apply (path_of_nonstring_status
           [(text_of "dev", JStr (text_of "sda")); (text_of "chk_st", JInt 3)]
           (JStr (text_of "sda")) (JInt 3)); reflexivity.
Defined.

(* ================================================================== *)
(** ** The generator and the flattened view *)

Lemma comprehension_length {A} (f : json -> result A) :
  forall l ys, comprehension f l = Ok ys -> length ys = length l.
Proof.
  induction l as [|x l IH]; cbn [comprehension]; intros ys H.
  - now injection H as <-.
  - destruct (f x); [|discriminate]. cbn [bind] in H.
    destruct (comprehension f l) as [ys'|]; [|discriminate].
    cbn [bind] in H. injection H as <-. cbn [length]. now rewrite (IH ys').
Qed.

(** X12.  The loop of [mpaths_get] yields the maps in the order of the
    array, one object per element; at the first element that cannot be
    built it stops with that element's exception, the objects before it
    already yielded. *)
Theorem yield_each_prefix (good rest : list json) (ms : list MPath.t) :
  comprehension MPath.__init__ good = Ok ms ->
  length ms = length good /\
  yield_each good = (ms, None) /\
  (forall bad e,
      MPath.__init__ bad = Raise e ->
      yield_each (good ++ bad :: rest) = (ms, Some e)).
Proof.
  intros H. split; [now apply comprehension_length in H|].
  revert ms H; induction good as [|x good IH]; cbn [comprehension];
    intros ms H.
  - injection H as <-. split; [reflexivity|].
    intros bad e Hb. cbn [app yield_each]. now rewrite Hb.
  - destruct (MPath.__init__ x) as [m|] eqn:E; [|discriminate].
    cbn [bind] in H.
    destruct (comprehension MPath.__init__ good) as [ms'|]; [|discriminate].
    cbn [bind] in H. injection H as <-.
    destruct (IH ms' eq_refl) as [H1 H2]. split.
    + cbn [yield_each]. now rewrite E, H1.
    + intros bad e Hb. cbn [app yield_each]. now rewrite E, (H2 bad e Hb).
Qed.

Lemma yield_each_prefix_witness :
  length [{| MPath._path_groups := []; MPath._uuid := JStr (text_of "w");
             MPath._name := JStr (text_of "n");
             MPath._sysfs := JStr (text_of "dm-1") |}]
  = length [JObj [(text_of "path_groups", JArr []);
                  (text_of "uuid", JStr (text_of "w"));
                  (text_of "name", JStr (text_of "n"));
                  (text_of "sysfs", JStr (text_of "dm-1"))]] /\
  yield_each [JObj [(text_of "path_groups", JArr []);
                    (text_of "uuid", JStr (text_of "w"));
                    (text_of "name", JStr (text_of "n"));
                    (text_of "sysfs", JStr (text_of "dm-1"))]]
  = ([{| MPath._path_groups := []; MPath._uuid := JStr (text_of "w");
         MPath._name := JStr (text_of "n");
         MPath._sysfs := JStr (text_of "dm-1") |}], None) /\
  (forall bad e,
      MPath.__init__ bad = Raise e ->
      yield_each ([JObj [(text_of "path_groups", JArr []);
                         (text_of "uuid", JStr (text_of "w"));
                         (text_of "name", JStr (text_of "n"));
                         (text_of "sysfs", JStr (text_of "dm-1"))]]
                    ++ bad :: [JNull])
      = ([{| MPath._path_groups := []; MPath._uuid := JStr (text_of "w");
             MPath._name := JStr (text_of "n");
             MPath._sysfs := JStr (text_of "dm-1") |}], Some e)).
Proof.
  apply (yield_each_prefix
           [JObj [(text_of "path_groups", JArr []);
                  (text_of "uuid", JStr (text_of "w"));
                  (text_of "name", JStr (text_of "n"));
                  (text_of "sysfs", JStr (text_of "dm-1"))]]
           [JNull]
           [{| MPath._path_groups := []; MPath._uuid := JStr (text_of "w");
               MPath._name := JStr (text_of "n");
               MPath._sysfs := JStr (text_of "dm-1") |}]).
  reflexivity.
Defined.

Lemma extend_all {A B} (f : A -> list B) (l : list A) (acc : list B) :
  fold_left (fun rc x => rc ++ f x) l acc = acc ++ flat_map f l.
Proof.
  revert acc; induction l as [|x l IH]; intros acc; cbn [fold_left flat_map].
  - now rewrite app_nil_r.
  - now rewrite IH, app_assoc.
Qed.

(** X13.  [MPath.paths] is the paths of the groups, group after group, each
    group's paths in their order; nothing is dropped or repeated. *)
Theorem flattened_paths (m : MPath.t) :
  MPath.paths m = flat_map PathGroup.paths (MPath.path_groups m) /\
  length (MPath.paths m)
  = list_sum (map (fun g => length (PathGroup.paths g)) (MPath.path_groups m)) /\
  (forall p, In p (MPath.paths m) <->
             exists g, In g (MPath.path_groups m) /\ In p (PathGroup.paths g)).
Proof.
  assert (H : MPath.paths m = flat_map PathGroup.paths (MPath.path_groups m))
    by (unfold MPath.paths; now rewrite extend_all).
  split; [assumption|]. rewrite H. clear H. split.
  - induction (MPath.path_groups m) as [|g gs IH]; [reflexivity|].
    cbn [flat_map map]. rewrite length_app, IH. reflexivity.
  - intros p. apply in_flat_map.
Qed.

(* ================================================================== *)
(** ** What [strip] takes and what it leaves *)

Lemma lstrip_head (chars t : text) (c : Z) :
  hd_error (lstrip chars t) = Some c -> existsb (Z.eqb c) chars = false.
Proof.
  induction t as [|x t IH]; cbn [lstrip]; [discriminate|].
  destruct (existsb (Z.eqb x) chars) eqn:E; [assumption|].
  cbn [hd_error]. now intros [= <-].
Qed.

Lemma lstrip_suffix (chars t : text) :
  exists pre, t = pre ++ lstrip chars t.
Proof.
  induction t as [|x t [pre IH]]; cbn [lstrip]; [now exists []|].
  destruct (existsb (Z.eqb x) chars).
  - exists (x :: pre). cbn [app]. now f_equal.
  - now exists [].
Qed.

Lemma lstrip_keeps (chars t : text) (c : Z) :
  hd_error t = Some c -> existsb (Z.eqb c) chars = false ->
  lstrip chars t = t.
Proof.
  destruct t as [|x t]; [discriminate|]. cbn [hd_error lstrip].
  intros [= ->] ->. reflexivity.
Qed.

Lemma strip_ends (chars t : text) (c : Z) :
  (hd_error (strip chars t) = Some c \/
   hd_error (rev (strip chars t)) = Some c) ->
  existsb (Z.eqb c) chars = false.
Proof.
  unfold strip, rstrip. set (u := lstrip chars t).
  intros [H | H].
  - destruct (lstrip_suffix chars (rev u)) as [pre Hpre].
    apply (f_equal (@rev _)) in Hpre.
    rewrite rev_involutive, rev_app_distr in Hpre.
    destruct (rev (lstrip chars (rev u))) as [|x r]; [discriminate|].
    cbn [hd_error] in H. injection H as ->.
    apply (lstrip_head chars t). subst u. now rewrite Hpre.
  - rewrite rev_involutive in H. now apply lstrip_head in H.
Qed.

Lemma strip_length (chars t : text) :
  (length (strip chars t) <= length t)%nat.
Proof.
  unfold strip, rstrip. rewrite length_rev.
  destruct (lstrip_suffix chars (rev (lstrip chars t))) as [p1 H1].
  destruct (lstrip_suffix chars t) as [p2 H2].
  apply (f_equal (@length _)) in H1, H2.
  rewrite length_app in H1, H2. rewrite length_rev in H1. lia.
Qed.

(** X14.  [strip] with the NUL character takes the padding from both ends
    and nothing else. *)
Theorem strip_takes_only_padding (j k : nat) (t : text) :
  hd_error t <> Some 0 -> hd_error (rev t) <> Some 0 ->
  strip [0] (repeat 0 j ++ t ++ repeat 0 k) = t.
Proof.
  intros Hh Hl. unfold strip, rstrip. rewrite lstrip_nuls.
  assert (Hback : forall u, hd_error u <> Some 0 -> lstrip [0] u = u).
  { intros [|x u] Hx; [reflexivity|]. cbn [lstrip existsb].
    destruct (Z.eqb_spec x 0) as [-> | _]; [now elim Hx | reflexivity]. }
  destruct t as [|x t].
  - cbn [app]. rewrite <- (app_nil_r (repeat 0 k)), lstrip_nuls.
    reflexivity.
  - rewrite (Hback ((x :: t) ++ repeat 0 k)) by (cbn; exact Hh).
    rewrite rev_app_distr, rev_repeat, lstrip_nuls.
    rewrite (Hback _ Hl). apply rev_involutive.
Qed.

Lemma strip_takes_only_padding_witness :
  strip [0] (repeat 0 2 ++ [123; 0; 125] ++ repeat 0 3) = [123; 0; 125].
Proof.
  apply (strip_takes_only_padding 2 3 [123; 0; 125]); discriminate.
Defined.

(* ================================================================== *)
(** ** The session, in general *)

Lemma utf8_decode_length :
  forall (n : nat) (bs : list byte) (t : text),
    (length bs <= n)%nat -> utf8_decode bs = Ok t ->
    (length t <= length bs)%nat.
Proof.
  induction n as [|n IH]; intros bs t Hn H.
  - destruct bs; [|cbn in Hn; lia]. now injection H as <-.
  - destruct bs as [|b0 r0]; [now injection H as <-|].
    cbn [utf8_decode] in H. unfold bind in H. cbn [length] in Hn.
    repeat match type of H with
           | context [match ?x with _ => _ end] =>
               destruct x eqn:?; try discriminate H
           end;
      injection H as <-; cbn [length] in *;
      match goal with
      | E : utf8_decode ?r = Ok ?t' |- _ =>
          apply IH in E; cbn [length] in *; lia
      end.
Qed.

Lemma recv_length (n : Z) (s s' : socket) (bs : list byte) :
  recv n s = (Ok bs, s') -> 0 <= n /\ Z.of_nat (length bs) <= n.
Proof.
  unfold recv. destruct (n <? 0) eqn:E; [discriminate|].
  apply Z.ltb_ge in E.
  destruct (inbox s) as [|[c|e] rest]; intros H;
    [| |discriminate H]; injection H as <- _.
  - cbn. lia.
  - split; [assumption|]. rewrite length_firstn. lia.
Qed.

(** X15.  The text [_ipc_exec] returns (its receiving half) neither starts
    nor ends with a NUL character, and when it is not empty it is no
    longer than the length the prefix declared. *)
Theorem received_text_is_trimmed_and_bounded
        (pf : platform) (s s' : socket) (t : text) :
  receive pf s = (Ok t, s') ->
  hd_error t <> Some 0 /\
  hd_error (rev t) <> Some 0 /\
  (t <> [] ->
   exists buff L,
     fst (recv (_IPC_LEN_SIZE pf) s) = Ok buff /\
     _bytes_to_len pf buff = Ok L /\
     Z.of_nat (length t) <= L).
Proof.
  unfold receive, io_bind, lift, ret. intros H.
  destruct (recv (_IPC_LEN_SIZE pf) s) as [[buff|e] s1] eqn:E1;
    [|discriminate].
  destruct buff as [|b buff].
  { injection H as <- _. repeat split; try discriminate. congruence. }
  destruct (_bytes_to_len pf (b :: buff)) as [L|e] eqn:EL; [|discriminate].
  destruct (recv L s1) as [[raw|e] s2] eqn:E2; [|discriminate].
  destruct (utf8_decode raw) as [output|e] eqn:Ed; [|discriminate].
  injection H as <- _.
  split; [|split].
  - intros Hh. pose proof (strip_ends [0] output 0 (or_introl Hh)).
    discriminate.
  - intros Hh. pose proof (strip_ends [0] output 0 (or_intror Hh)).
    discriminate.
  - intros _. exists (b :: buff), L. cbn [fst].
    split; [reflexivity|]. split; [exact EL|].
    apply recv_length in E2.
    apply (utf8_decode_length (length raw)) in Ed; [|lia].
    pose proof (strip_length [0] output). lia.
Qed.

Lemma received_text_is_trimmed_and_bounded_witness :
  hd_error (quoted "{'a':1}") <> Some 0 /\
  hd_error (rev (quoted "{'a':1}")) <> Some 0 /\
  (quoted "{'a':1}" <> [] ->
   exists buff L,
     fst (recv (_IPC_LEN_SIZE linux64)
               (no_socket
                  (calm (answer linux64
                                [x00 :: ascii_bytes (quoted "{'a':1}")
                                     ++ [x00; x00]]))))
     = Ok buff /\
     _bytes_to_len linux64 buff = Ok L /\
     Z.of_nat (length (quoted "{'a':1}")) <= L).
Proof.
  apply (received_text_is_trimmed_and_bounded
           linux64
           (no_socket
              (calm (answer linux64
                            [x00 :: ascii_bytes (quoted "{'a':1}")
                                 ++ [x00; x00]])))
           (with_inbox
              (no_socket
                 (calm (answer linux64
                               [x00 :: ascii_bytes (quoted "{'a':1}")
                                    ++ [x00; x00]]))) [])).
  vm_compute. reflexivity.
Defined.

(* ------------------------------------------------------------------ *)

Lemma sock_of_query pf loads w :
  sock (mpaths_get pf loads w) = snd (exchange pf w (no_socket w)).
Proof.
  unfold mpaths_get.
  destruct (exchange pf w (no_socket w)) as [[t|e] s]; [|reflexivity].
  now destruct (generate loads t).
Qed.

Lemma exchange_returns_closed pf w (t : text) (s : socket) :
  exchange pf w (no_socket w) = (Ok t, s) -> is_open s = false.
Proof.
  unfold exchange. unfold io_bind at 1.
  destruct (socket_socket w (no_socket w)) as [[[]|e] s1]; [|discriminate].
  unfold io_bind at 1.
  destruct (settimeout 60 s1) as [[[]|e] s2]; [|discriminate].
  unfold io_bind at 1.
  destruct (connect w _IPC_ADDR s2) as [[[]|e] s3]; [|discriminate].
  unfold io_bind at 1.
  destruct (_ipc_exec pf w (text_of "show maps json") s3) as [[x|e] s4];
    [|discriminate].
  unfold io_bind, close, ret. now intros [= _ <-].
Qed.

(** X16.  Whenever the session returns its text, the socket is closed before
    anything is decoded: a query that ends normally, or that ends with an
    exception of the JSON decoder, of the version check or of the
    construction of a map, leaves no socket open. *)
Theorem socket_closed_once_session_returns
        (pf : platform) (loads : text -> result json) (w : world) :
  (forall t s,
      exchange pf w (no_socket w) = (Ok t, s) ->
      is_open (sock (mpaths_get pf loads w)) = false /\
      yielded (mpaths_get pf loads w) = fst (generate loads t) /\
      raised (mpaths_get pf loads w) = snd (generate loads t)) /\
  (raised (mpaths_get pf loads w) = None ->
   is_open (sock (mpaths_get pf loads w)) = false).
Proof.
  split.
  - intros t s H. rewrite sock_of_query, H. cbn [snd].
    split; [now apply exchange_returns_closed in H|].
    unfold mpaths_get. rewrite H. now destruct (generate loads t).
  - rewrite sock_of_query. unfold mpaths_get.
    destruct (exchange pf w (no_socket w)) as [[t|e] s] eqn:H;
      [|discriminate].
    intros _. now apply exchange_returns_closed in H.
Qed.

Lemma socket_closed_once_session_returns_witness :
  is_open (sock (mpaths_get linux64 json_loads
                   (calm (answer linux64 [ascii_bytes (quoted "{'maps':")]))))
  = false /\
  yielded (mpaths_get linux64 json_loads
             (calm (answer linux64 [ascii_bytes (quoted "{'maps':")])))
  = fst (generate json_loads (quoted "{'maps':")) /\
  raised (mpaths_get linux64 json_loads
            (calm (answer linux64 [ascii_bytes (quoted "{'maps':")])))
  = snd (generate json_loads (quoted "{'maps':")).
Proof.
  apply (proj1 (socket_closed_once_session_returns
                  linux64 json_loads
                  (calm (answer linux64 [ascii_bytes (quoted "{'maps':")])))
               (quoted "{'maps':")
               (snd (exchange
                       linux64
                       (calm (answer linux64
                                     [ascii_bytes (quoted "{'maps':")]))
                       (no_socket
                          (calm (answer linux64
                                        [ascii_bytes (quoted "{'maps':")])))))).
  vm_compute. reflexivity.
Defined.

(** X17.  A prefix that decodes to a negative length (struct's signed
    reading of a field with its top bit set) makes [recv] refuse the
    buffer size: the query ends with ValueError, nothing of the payload
    read and the socket not closed. *)
Theorem negative_declared_length
        (pf : platform) (loads : text -> result json) (w : world)
        (prefix : list byte) (rest : list event) (L : Z) :
  untroubled w ->
  incoming w = Chunk prefix :: rest ->
  prefix <> [] -> (length prefix <= ssize_bytes pf)%nat ->
  _bytes_to_len pf prefix = Ok L -> L < 0 ->
  raised (mpaths_get pf loads w) = Some ValueError /\
  yielded (mpaths_get pf loads w) = [] /\
  inbox (sock (mpaths_get pf loads w)) = rest /\
  is_open (sock (mpaths_get pf loads w)) = true.
Proof.
  intros Hw Hin Hne Hlen HL Hneg.
  destruct (mpaths_get_untroubled pf loads w Hw) as (p15 & _ & ->).
  match goal with |- context [receive pf ?s] => set (s0 := s) end.
  assert (H : receive pf s0 = (Raise ValueError, with_inbox s0 rest)).
  { unfold receive.
    rewrite (io_bind_ok _ _ _ _ _
               (recv_chunk (_IPC_LEN_SIZE pf) s0 prefix rest
                           ltac:(unfold _IPC_LEN_SIZE; lia) Hin)).
    unfold _IPC_LEN_SIZE. rewrite Nat2Z.id.
    rewrite firstn_all2, skipn_all2 by lia.
    destruct prefix as [|b prefix]; [congruence|].
    unfold lift at 1. unfold io_bind at 1. rewrite HL.
    unfold io_bind at 1. unfold recv.
    now replace (L <? 0) with true by (symmetry; now apply Z.ltb_lt). }
  rewrite H. repeat split.
Qed.

Lemma negative_declared_length_witness :
  raised (mpaths_get linux64 json_loads
            (calm [Chunk [xff; xff; xff; xff; xff; xff; xff; xff];
                   Chunk [x7b; x7d]])) = Some ValueError /\
  yielded (mpaths_get linux64 json_loads
             (calm [Chunk [xff; xff; xff; xff; xff; xff; xff; xff];
                    Chunk [x7b; x7d]])) = [] /\
  inbox (sock (mpaths_get linux64 json_loads
                 (calm [Chunk [xff; xff; xff; xff; xff; xff; xff; xff];
                        Chunk [x7b; x7d]]))) = [Chunk [x7b; x7d]] /\
  is_open (sock (mpaths_get linux64 json_loads
                   (calm [Chunk [xff; xff; xff; xff; xff; xff; xff; xff];
                          Chunk [x7b; x7d]]))) = true.
Proof.
  apply (negative_declared_length
           linux64 json_loads
           (calm [Chunk [xff; xff; xff; xff; xff; xff; xff; xff];
                  Chunk [x7b; x7d]])
           [xff; xff; xff; xff; xff; xff; xff; xff] [Chunk [x7b; x7d]] (-1)).
  - repeat split.
  - reflexivity.
  - discriminate.
  - vm_compute. lia.
  - reflexivity.
  - lia.
Defined.

(* ------------------------------------------------------------------ *)

Lemma recv_keeps (n : Z) (s : socket) :
  peer (snd (recv n s)) = peer s /\ timeout (snd (recv n s)) = timeout s.
Proof.
  unfold recv. destruct (n <? 0); [auto|].
  destruct (inbox s) as [|[bs|e] rest]; auto.
Qed.

Lemma receive_keeps pf (s : socket) :
  peer (snd (receive pf s)) = peer s /\
  timeout (snd (receive pf s)) = timeout s.
Proof.
  remember (receive pf s) as r eqn:Hr.
  unfold receive, io_bind, lift, ret in Hr.
  destruct (recv_keeps (_IPC_LEN_SIZE pf) s) as [H1 H2].
  destruct (recv (_IPC_LEN_SIZE pf) s) as [[buff|e] s1];
    cbn [snd] in H1, H2; [|subst r; auto].
  destruct buff as [|b buff]; [subst r; auto|].
  destruct (_bytes_to_len pf (b :: buff)) as [L|e]; [|subst r; auto].
  destruct (recv_keeps L s1) as [H3 H4].
  destruct (recv L s1) as [[raw|e] s2]; cbn [snd] in H3, H4;
    [|subst r; cbn [snd]; split; congruence].
  destruct (utf8_decode raw); subst r; cbn [snd]; split; congruence.
Qed.

Lemma exchange_no_socket pf w e :
  socket_exn w = Some e ->
  exchange pf w (no_socket w) = (Raise e, no_socket w).
Proof.
  intros H. unfold exchange, io_bind, socket_socket. now rewrite H.
Qed.

Lemma exchange_not_connected pf w e :
  socket_exn w = None -> connect_exn w = Some e ->
  exchange pf w (no_socket w)
  = (Raise e, {| is_open := true; timeout := Some 60; peer := None;
                 sent := []; inbox := incoming w |}).
Proof.
  intros H1 H2.
  unfold exchange, io_bind, socket_socket, settimeout, connect, no_socket.
  now rewrite H1, H2.
Qed.

Lemma exchange_not_sent pf w e :
  socket_exn w = None -> connect_exn w = None -> sendall_exn w = Some e ->
  exists frame,
    exchange pf w (no_socket w) = (Raise e, requested w frame).
Proof.
  intros H1 H2 H3.
  destruct (_len_to_ssize_t_bytes_total pf 15 ltac:(lia)) as [prefix Hp].
  exists (prefix ++ ascii_bytes show_maps_json ++ [x00]).
  unfold exchange. rewrite _ipc_exec_split.
  change (Z.of_nat (length (text_of "show maps json")) + 1) with 15.
  rewrite Hp.
  change (utf8_encode (text_of "show maps json"))
    with (Ok (ascii_bytes show_maps_json)).
  unfold io_bind, socket_socket, settimeout, connect, sendall, lift, ret,
    no_socket, bind.
  now rewrite H1, H2, H3.
Qed.

Ltac settle_discipline :=
  repeat split;
  first [ solve [auto] | lia | congruence
        | intros [H | H]; congruence
        | match goal with H : _ \/ _ |- _ => destruct H; congruence end ].

(** X18.  What a query does with its socket, whatever happens: it sets the
    time-out to 60 seconds, connects to the daemon's abstract address and
    nowhere else, sends at most one frame, sends nothing unless it is
    connected, and reads nothing unless the frame went out. *)
Theorem query_discipline
        (pf : platform) (loads : text -> result json) (w : world) :
  let s := sock (mpaths_get pf loads w) in
  (length (sent s) <= 1)%nat /\
  (peer s = None \/ peer s = Some _IPC_ADDR) /\
  (timeout s = None \/ timeout s = Some 60) /\
  (socket_exn w = None -> timeout s = Some 60) /\
  (socket_exn w <> None \/ connect_exn w <> None ->
   sent s = [] /\ inbox s = incoming w) /\
  (sendall_exn w <> None -> inbox s = incoming w).
Proof.
  cbv zeta. rewrite sock_of_query.
  destruct (socket_exn w) as [e1|] eqn:E1.
  { rewrite (exchange_no_socket pf w e1 E1).
    cbn [snd no_socket is_open timeout peer sent inbox length].
    settle_discipline. }
  destruct (connect_exn w) as [e2|] eqn:E2.
  { rewrite (exchange_not_connected pf w e2 E1 E2).
    cbn [snd is_open timeout peer sent inbox length].
    settle_discipline. }
  destruct (sendall_exn w) as [e3|] eqn:E3.
  { destruct (exchange_not_sent pf w e3 E1 E2 E3) as [frame ->].
    cbn [snd requested is_open timeout peer sent inbox length].
    settle_discipline. }
  destruct (exchange_untroubled pf w (conj E1 (conj E2 E3)))
    as (prefix & _ & ->).
  match goal with |- context [receive pf ?s1] =>
    destruct (receive_sent pf s1) as [Hs _];
    destruct (receive_keeps pf s1) as [Hp Ht];
    destruct (receive pf s1) as [[t|e] s2]
  end; cbn [snd requested close is_open timeout peer sent inbox] in *;
    rewrite Hs, Hp, Ht; cbn [length];
    settle_discipline.
Qed.

(* ================================================================== *)
(** ** From the payload to the objects *)

(** X19.  A document that is not what the query expects ends the query with
    the exception of the first thing that is missing, before any map is
    yielded: the decoder's own error; TypeError when the document is not
    an object; KeyError without "major_version"; a failure when the
    version is not 0, whatever "maps" holds; and, with the version
    accepted, KeyError without "maps" and TypeError when "maps" cannot
    be iterated. *)
Theorem unexpected_document (loads : text -> result json) (t : text) :
  t <> [] ->
  (forall e, loads t = Raise e -> generate loads t = ([], Some e)) /\
  (forall tree,
      loads t = Ok tree ->
      ((forall kvs, tree <> JObj kvs) ->
       generate loads t = ([], Some TypeError)) /\
      (forall kvs,
          tree = JObj kvs ->
          (member (text_of "major_version") kvs = None ->
           generate loads t = ([], Some KeyError)) /\
          (forall v,
              member (text_of "major_version") kvs = Some v ->
              (py_eq v (JInt 0) = false ->
               fst (generate loads t) = [] /\
               snd (generate loads t) <> None) /\
              (py_eq v (JInt 0) = true ->
               (member (text_of "maps") kvs = None ->
                generate loads t = ([], Some KeyError)) /\
               (forall maps,
                   member (text_of "maps") kvs = Some maps ->
                   py_iter maps = Raise TypeError ->
                   generate loads t = ([], Some TypeError)) /\
               (forall maps l,
                   member (text_of "maps") kvs = Some maps ->
                   py_iter maps = Ok l ->
                   generate loads t = yield_each l))))).
Proof.
  intros Hne.
  assert (Hlen : (length t =? 0)%nat = false).
  { destruct t; [congruence | reflexivity]. }
  unfold generate. rewrite Hlen. split.
  - now intros e ->.
  - intros tree ->. split.
    + intros Hno. destruct tree; try reflexivity. now elim (Hno members).
    + intros kvs ->. cbn [getitem]. split.
      * now intros ->.
      * intros v ->. unfold _API_VERSION_MAJOR. split.
        -- intros ->. cbn [negb fst snd]. split; [reflexivity | discriminate].
        -- intros ->. cbn [negb]. split; [now intros ->|].
           split.
           ++ intros maps -> Hi. cbn [bind]. now rewrite Hi.
           ++ intros maps l -> Hi. cbn [bind]. now rewrite Hi.
Qed.

Lemma unexpected_document_witness :
  (forall e,
      json_loads (quoted "[1, 2]") = Raise e ->
      generate json_loads (quoted "[1, 2]") = ([], Some e)) /\
  (forall tree,
      json_loads (quoted "[1, 2]") = Ok tree ->
      ((forall kvs, tree <> JObj kvs) ->
       generate json_loads (quoted "[1, 2]") = ([], Some TypeError)) /\
      (forall kvs,
          tree = JObj kvs ->
          (member (text_of "major_version") kvs = None ->
           generate json_loads (quoted "[1, 2]") = ([], Some KeyError)) /\
          (forall v,
              member (text_of "major_version") kvs = Some v ->
              (py_eq v (JInt 0) = false ->
               fst (generate json_loads (quoted "[1, 2]")) = [] /\
               snd (generate json_loads (quoted "[1, 2]")) <> None) /\
              (py_eq v (JInt 0) = true ->
               (member (text_of "maps") kvs = None ->
                generate json_loads (quoted "[1, 2]") = ([], Some KeyError)) /\
               (forall maps,
                   member (text_of "maps") kvs = Some maps ->
                   py_iter maps = Raise TypeError ->
                   generate json_loads (quoted "[1, 2]")
                   = ([], Some TypeError)) /\
               (forall maps l,
                   member (text_of "maps") kvs = Some maps ->
                   py_iter maps = Ok l ->
                   generate json_loads (quoted "[1, 2]")
                   = yield_each l))))).
Proof.
  apply (unexpected_document json_loads (quoted "[1, 2]")). discriminate.
Defined.

(** X20.  When nothing fails and the peer sends the length of a payload
    (one that [recv] takes for a size) and then the payload whole, the
    query is the generator's pure half on the payload's text, NUL padding
    stripped, and its socket is closed; a payload that is not UTF-8 ends
    the query with the decoder's error. *)
Theorem query_of_a_whole_payload
        (pf : platform) (loads : text -> result json) (w : world)
        (prefix payload : list byte) :
  untroubled w ->
  Z.of_nat (length payload) < ssize_half pf ->
  Z.of_nat (length payload) <= INT_MAX ->
  _len_to_ssize_t_bytes pf (Z.of_nat (length payload)) = Ok prefix ->
  delivers w prefix payload ->
  (forall t,
      utf8_decode payload = Ok t ->
      yielded (mpaths_get pf loads w) = fst (generate loads (strip [0] t)) /\
      raised (mpaths_get pf loads w) = snd (generate loads (strip [0] t)) /\
      is_open (sock (mpaths_get pf loads w)) = false) /\
  (forall e,
      utf8_decode payload = Raise e ->
      yielded (mpaths_get pf loads w) = [] /\
      raised (mpaths_get pf loads w) = Some e).
Proof.
  intros Hw Hlt _ Hp [rest Hd].
  destruct (mpaths_get_untroubled pf loads w Hw) as (p15 & _ & ->).
  pose proof (conj (Nat2Z.is_nonneg (length payload)) Hlt) as Hn.
  destruct (_len_to_ssize_t_bytes_length pf _ prefix Hn Hp) as [Hlen Hne].
  pose proof (_bytes_to_len_encoded pf _ prefix Hn Hp) as HL.
  match goal with |- context [receive pf ?s] =>
    rewrite (receive_delivered pf s prefix payload rest
               _ Hd Hlen Hne HL (proj1 Hn))
  end.
  rewrite Nat2Z.id, firstn_all.
  split; [intros t -> | intros e ->]; cbn [bind yielded raised sock];
    repeat split.
Qed.

Lemma query_of_a_whole_payload_witness :
  (forall t,
      utf8_decode (ascii_bytes no_maps_payload ++ [x00; x00]) = Ok t ->
      yielded (mpaths_get
                 linux64 json_loads
                 (calm (answer linux64
                               [ascii_bytes no_maps_payload ++ [x00; x00]])))
      = fst (generate json_loads (strip [0] t)) /\
      raised (mpaths_get
                linux64 json_loads
                (calm (answer linux64
                              [ascii_bytes no_maps_payload ++ [x00; x00]])))
      = snd (generate json_loads (strip [0] t)) /\
      is_open (sock (mpaths_get
                       linux64 json_loads
                       (calm (answer linux64
                                     [ascii_bytes no_maps_payload
                                        ++ [x00; x00]]))))
      = false) /\
  (forall e,
      utf8_decode (ascii_bytes no_maps_payload ++ [x00; x00]) = Raise e ->
      yielded (mpaths_get
                 linux64 json_loads
                 (calm (answer linux64
                               [ascii_bytes no_maps_payload ++ [x00; x00]])))
      = [] /\
      raised (mpaths_get
                linux64 json_loads
                (calm (answer linux64
                              [ascii_bytes no_maps_payload ++ [x00; x00]])))
      = Some e).
Proof.
  apply (query_of_a_whole_payload
           linux64 json_loads
           (calm (answer linux64 [ascii_bytes no_maps_payload ++ [x00; x00]]))
           (le_bytes 8 31) (ascii_bytes no_maps_payload ++ [x00; x00])).
  - repeat split.
  - vm_compute. reflexivity.
  - vm_compute. discriminate.
  - vm_compute. reflexivity.
  - exists []. right. vm_compute. reflexivity.
Defined.

Lemma comprehension_first_error {A} (f : json -> result A)
      (good rest : list json) (bad : json) (ys : list A) (e : exn) :
  comprehension f good = Ok ys -> f bad = Raise e ->
  comprehension f (good ++ bad :: rest) = Raise e.
Proof.
  revert ys; induction good as [|x good IH]; cbn [comprehension app];
    intros ys H Hb.
  - now rewrite Hb.
  - destruct (f x); [|discriminate]. cbn [bind] in *.
    destruct (comprehension f good) as [ys'|]; [|discriminate].
    now rewrite (IH ys' eq_refl Hb).
Qed.

(** X21.  The constructors build the children first, in order, and stop at
    the first that fails: a path group whose "paths" hold a record that
    cannot be made a Path raises that record's exception, whatever its
    other members are or lack, and so does a map for its "path_groups". *)
Theorem first_bad_child_wins
        (kvs : list (text * json)) (good rest : list json) (bad : json)
        (e : exn) :
  (forall ps,
      member (text_of "paths") kvs = Some (JArr (good ++ bad :: rest)) ->
      comprehension Path.__init__ good = Ok ps ->
      Path.__init__ bad = Raise e ->
      PathGroup.__init__ (JObj kvs) = Raise e) /\
  (forall gs,
      member (text_of "path_groups") kvs
      = Some (JArr (good ++ bad :: rest)) ->
      comprehension PathGroup.__init__ good = Ok gs ->
      PathGroup.__init__ bad = Raise e ->
      MPath.__init__ (JObj kvs) = Raise e).
Proof.
  split.
  - intros ps Hm Hg Hb. unfold PathGroup.__init__, getitem. rewrite Hm.
    cbn [bind py_iter].
    now rewrite (comprehension_first_error _ good rest bad ps e Hg Hb).
  - intros gs Hm Hg Hb. unfold MPath.__init__, getitem. rewrite Hm.
    cbn [bind py_iter].
    now rewrite (comprehension_first_error _ good rest bad gs e Hg Hb).
Qed.

Lemma first_bad_child_wins_witness :
  PathGroup.__init__
    (JObj [(text_of "paths",
            JArr ([JObj [(text_of "dev", JStr (text_of "sda"));
                         (text_of "chk_st", JStr (text_of "ready"))]]
                    ++ JObj [(text_of "chk_st", JStr (text_of "ready"))]
                    :: [JNull]))])
  = Raise KeyError.
Proof.
  apply (proj1 (first_bad_child_wins
                  [(text_of "paths",
                    JArr ([JObj [(text_of "dev", JStr (text_of "sda"));
                                 (text_of "chk_st", JStr (text_of "ready"))]]
                            ++ JObj [(text_of "chk_st",
                                      JStr (text_of "ready"))]
                            :: [JNull]))]
                  [JObj [(text_of "dev", JStr (text_of "sda"));
                         (text_of "chk_st", JStr (text_of "ready"))]]
                  [JNull]
                  (JObj [(text_of "chk_st", JStr (text_of "ready"))])
                  KeyError)
               [sda]); reflexivity.
Defined.
